(** * Frank-Wolfe solvers of [copt/frank_wolfe.py]: a shallow embedding

    The Python module implements vanilla, pairwise and away-step Frank-Wolfe
    over the L1 ball and the nuclear-norm ball.  Each function of the module
    is embedded below under its own name.

    Conventions of the embedding.

    - Numbers.  A Python/NumPy float is modelled by an exact rational ([Q]):
      no rounding, no overflow.  IEEE special values are not represented: a
      float division whose divisor is zero (NumPy yields [inf] or [nan] and
      goes on) ends the modelled run with the outcome [NonFinite], which no
      statement below treats as a result of the program.  Comparisons of
      floats ([<=], [<], [==], [!=]) are the boolean tests [Qle_bool],
      [Qltb], [Qeq_bool]; equality of results is [Qeq] ([==]).
    - Arrays.  A one-dimensional array is a [list Q], a dense matrix a list of
      rows.  Binary operations on two arrays pair their entries; operands
      have equal shapes in the program (the oracle returns a gradient of the
      shape of its argument).
    - Exceptions.  Fallible code lives in the error monad [res]; the
      exceptions are those the Python code can raise.
    - Loops.  [for it in range(max_iter)] is [for_range]; the bounded trial
      loops are structural recursions on the number of trials left.
    - Environment.  The NumPy names [np.float] and [np.bool] are those of
      the NumPy releases the module was written for.
    - Monitoring.  The progress bar ([trange], [set_postfix]) and the values
      computed only for it ([L_average], [L_t_mean], [all_Lt],
      [num_bad_steps]) are left out.  The callback is modelled by the list of
      iterates it is called with, in order ([trace]). *)

From Stdlib Require Import String QArith Qabs Qpower Lqa ZArith List Bool
  Lia.
Import ListNotations.
Local Open Scope Q_scope.

(** ** Floats as rationals *)

Definition Qltb (a b : Q) : bool := negb (Qle_bool b a).

(** Python's builtin [min(a, b)]: [b] when [b < a], otherwise [a]. *)
Definition pymin (a b : Q) : Q := if Qltb b a then b else a.

(** [np.sign]. *)
Definition sign (a : Q) : Q :=
  if Qltb 0 a then 1 else if Qltb a 0 then - (1) else 0.

(** [np.sign(float(k))] for an integer [k]. *)
Definition sign_Z (k : Z) : Q := sign (inject_Z k).

Definition LS_EPS : Q := 1 # (2 ^ 52).
Definition half : Q := 1 # 2.

(** ** Exceptions and the error monad *)

Inductive exn : Type :=
| ValueError
| AssertionError
| UnboundLocalError
| IndexError
| ZeroDivisionError
| ArpackError
| NonFinite.

Inductive res (A : Type) : Type :=
| Ok (a : A)
| Raise (e : exn).
Arguments Ok {A} a.
Arguments Raise {A} e.

Definition bind {A B : Type} (m : res A) (k : A -> res B) : res B :=
  match m with
  | Ok a => k a
  | Raise e => Raise e
  end.

Notation "x <- m ;; k" := (bind m (fun x => k))
  (at level 61, m at next level, right associativity).
Notation "' p <- m ;; k" := (bind m (fun x => let p := x in k))
  (at level 61, p pattern, m at next level, right associativity).

(** Float division; a zero divisor leaves the model. *)
Definition fdiv (a b : Q) : res Q :=
  if Qeq_bool b 0 then Raise NonFinite else Ok (a / b).

(** [assert c]. *)
Definition assert (c : bool) : res unit :=
  if c then Ok tt else Raise AssertionError.

(** ** Python indexing *)

(** The position an index [i] denotes in a sequence of length [len]:
    negative indices count from the end, anything else is an [IndexError]. *)
Definition py_index (len : nat) (i : Z) : res nat :=
  if ((0 <=? i) && (i <? Z.of_nat len))%Z then Ok (Z.to_nat i)
  else if ((i <? 0) && (- Z.of_nat len <=? i))%Z
       then Ok (Z.to_nat (Z.of_nat len + i))
       else Raise IndexError.

Fixpoint upd {A : Type} (l : list A) (k : nat) (a : A) : list A :=
  match l, k with
  | [], _ => []
  | _ :: l', O => a :: l'
  | b :: l', S k' => b :: upd l' k' a
  end.

Fixpoint remove_nth {A : Type} (l : list A) (k : nat) : list A :=
  match l, k with
  | [], _ => []
  | _ :: l', O => l'
  | b :: l', S k' => b :: remove_nth l' k'
  end.

(** [l[i]]. *)
Definition getitem {A : Type} (l : list A) (i : Z) : res A :=
  k <- py_index (length l) i ;;
  match nth_error l k with
  | Some a => Ok a
  | None => Raise IndexError
  end.

(** [l[i] = a]. *)
Definition setitem {A : Type} (l : list A) (i : Z) (a : A) : res (list A) :=
  k <- py_index (length l) i ;;
  Ok (upd l k a).

(** [a % n] on Python integers.  In the drivers [n] is [n_features], which
    is zero only for an empty [x0]; [np.argmax] has raised by then. *)
Definition pymod (a n : Z) : res Z :=
  if (n =? 0)%Z then Raise ZeroDivisionError else Ok (a mod n)%Z.

(** ** Vectors *)

Definition vec : Type := list Q.

Definition map2 {A B C : Type} (f : A -> B -> C) (l1 : list A) (l2 : list B)
  : list C :=
  map (fun p => f (fst p) (snd p)) (combine l1 l2).

Definition vsum (x : vec) : Q := fold_right Qplus 0 x.
Definition vadd (x y : vec) : vec := map2 Qplus x y.
Definition vsub (x y : vec) : vec := map2 Qminus x y.
Definition vmul (x y : vec) : vec := map2 Qmult x y.
Definition vscale (c : Q) (x : vec) : vec := map (Qmult c) x.
Definition vneg (x : vec) : vec := map Qopp x.
Definition vabs (x : vec) : vec := map Qabs x.
Definition dot (x y : vec) : Q := vsum (vmul x y).
Definition zeros (n : nat) : vec := repeat 0 n.

(** [x + gamma * d]. *)
Definition axpy (x : vec) (gamma : Q) (d : vec) : vec :=
  vadd x (vscale gamma d).

(** [np.argmax]: the first position of the largest entry; an empty array is
    a [ValueError]. *)
Fixpoint argmax_from (best : Q) (besti : nat) (i : nat) (l : vec) : nat :=
  match l with
  | [] => besti
  | a :: l' =>
      if Qltb best a then argmax_from a i (S i) l'
      else argmax_from best besti (S i) l'
  end.

Definition argmax (l : vec) : res Z :=
  match l with
  | [] => Raise ValueError
  | a :: l' => Ok (Z.of_nat (argmax_from a 0 1 l'))
  end.

(** The objective oracle: a pure function from a point to its loss and
    gradient. *)
Definition oracle (V : Type) : Type := V -> Q * V.

(** ** Loops *)

(** [for it in range(n)] over a state: the body either breaks ([Ok None]),
    goes on with a new state, or raises.  The result is the state the loop
    was left in, and the exception if one ended it. *)
Fixpoint for_range {S : Type} (body : nat -> S -> res (option S))
  (n it : nat) (s : S) : S * option exn :=
  match n with
  | O => (s, None)
  | Datatypes.S n' =>
      match body it s with
      | Ok (Some s') => for_range body n' (Datatypes.S it) s'
      | Ok None => (s, None)
      | Raise e => (s, Some e)
      end
  end.

(** [reach body k it s s']: [k] iterations from [s], none of which breaks
    or raises, lead to [s']. *)
Fixpoint reach {S : Type} (body : nat -> S -> res (option S))
  (k it : nat) (s s' : S) : Prop :=
  match k with
  | O => s' = s
  | Datatypes.S k' =>
      exists s1, body it s = Ok (Some s1) /\
                 reach body k' (Datatypes.S it) s1 s'
  end.

(** One trial of an adaptive line search: it ends the search ([Break]) or
    asks for another trial ([Next]), in both cases with a curvature estimate
    and the values of the trial. *)
Inductive trial (T : Type) : Type :=
| Break (L : Q) (t : T)
| Next (L : Q) (t : T).
Arguments Break {T} L t.
Arguments Next {T} L t.

(** [for i in range(n): body] for the inline adaptive searches: after the
    loop the variables hold the values of the last trial made. *)
Fixpoint for_trials {T : Type} (body : nat -> Q -> res (trial T))
  (n i : nat) (L : Q) (last : option T) : res (Q * T) :=
  match n with
  | O =>
      match last with
      | Some t => Ok (L, t)
      | None => Raise UnboundLocalError
      end
  | Datatypes.S n' =>
      r <- body i L ;;
      match r with
      | Break L' t => Ok (L', t)
      | Next L' t => for_trials body n' (Datatypes.S i) L' (Some t)
      end
  end.

(** What a solver call does: return an iterate or raise. *)
Inductive outcome (V : Type) : Type :=
| Returned (x : V)
| Raised (e : exn).
Arguments Returned {V} x.
Arguments Raised {V} e.

(** ** Line searches on vectors *)

Section LineSearch.
Variable f_grad : oracle vec.

(** [backtrack]: the [else] belongs to the [for], so the curvature
    estimate is raised once, after the last trial, and not between
    trials. *)
Section Backtrack.
Variables (f_t : Q) (x_t d_t : vec) (g_t : Q).
Variables (gamma_max ratio_increase ratio_decrease : Q).

Fixpoint backtrack_for (n i : nat) (L_t : Q) (last : option (Q * Q * vec))
  : res (Q * Q * Q * vec) :=
  let d2_t := dot d_t d_t in
  match n with
  | O =>
      match last with
      | Some (step_size, f_next, grad_next) =>
          Ok (step_size, L_t * ratio_increase, f_next, grad_next)
      | None => Raise UnboundLocalError
      end
  | S n' =>
      q <- fdiv g_t (d2_t * L_t) ;;
      let step_size := pymin q gamma_max in
      let rhs := f_t - step_size * g_t
                 + half * (step_size ^ 2) * L_t * d2_t in
      let '(f_next, grad_next) := f_grad (axpy x_t step_size d_t) in
      if Qle_bool f_next rhs then
        Ok (step_size,
            (if Nat.eqb i 0 then L_t * ratio_decrease else L_t),
            f_next, grad_next)
      else backtrack_for n' (S i) L_t (Some (step_size, f_next, grad_next))
  end.
End Backtrack.

Definition backtrack (f_t : Q) (x_t d_t : vec) (g_t L_t : Q)
  (gamma_max ratio_increase ratio_decrease : Q) (max_iter : nat)
  : res (Q * Q * Q * vec) :=
  backtrack_for f_t x_t d_t g_t gamma_max ratio_increase ratio_decrease
    max_iter 0 L_t None.

(** The bracket of the bisection searches. *)
Record bracket : Type := {
  lbracket : Q; grad_lbracket : Q;
  rbracket : Q; grad_rbracket : Q
}.

Definition bisect (b : bracket) (c grad_c : Q) : bracket :=
  if Qle_bool 0 (grad_c * grad_lbracket b)
  then {| lbracket := c; grad_lbracket := grad_c;
          rbracket := rbracket b; grad_rbracket := grad_rbracket b |}
  else {| lbracket := lbracket b; grad_lbracket := grad_lbracket b;
          rbracket := c; grad_rbracket := grad_c |}.

Section Bisection.
Variables (f_t : Q) (x_t d_t : vec).

(** [obj(gamma)]: loss, directional derivative and gradient. *)
Definition obj (gamma : Q) : Q * Q * vec :=
  let '(f_next, grad) := f_grad (axpy x_t gamma d_t) in
  (f_next, dot d_t grad, grad).

Definition init_bracket (gamma_max : Q) : bracket :=
  {| lbracket := 0; grad_lbracket := snd (fst (obj 0));
     rbracket := gamma_max; grad_rbracket := snd (fst (obj gamma_max)) |}.

(** [approx_ls]: bisect until the loss at the midpoint is below [f_t];
    the result is the midpoint of the final bracket. *)
Fixpoint approx_ls_for (n : nat) (b : bracket) : res Q :=
  match n with
  | O => Ok ((lbracket b + rbracket b) / 2)
  | S n' =>
      _ <- assert (Qle_bool (grad_lbracket b * grad_rbracket b) 0) ;;
      let c := (lbracket b + rbracket b) / 2 in
      let '(fc, grad_c, _) := obj c in
      let b' := bisect b c grad_c in
      if Qltb fc f_t then Ok ((lbracket b' + rbracket b') / 2)
      else approx_ls_for n' b'
  end.

Definition approx_ls (gamma_max : Q) (max_iter : nat) : res Q :=
  approx_ls_for max_iter (init_bracket gamma_max).

(** [approx_ls_armijo]: bisect until the Armijo test holds at the
    midpoint; the result is the last midpoint. *)
Fixpoint approx_ls_armijo_for (n : nat) (b : bracket) (last : option Q)
  : res Q :=
  match n with
  | O =>
      match last with
      | Some c => Ok c
      | None => Raise UnboundLocalError
      end
  | S n' =>
      _ <- assert (Qle_bool (grad_lbracket b * grad_rbracket b) 0) ;;
      let c := (lbracket b + rbracket b) / 2 in
      let '(fc, grad_c, grad_f) := obj c in
      let b' := bisect b c grad_c in
      if Qltb fc (f_t + (1 # 10) * c * dot d_t grad_f) then Ok c
      else approx_ls_armijo_for n' b' (Some c)
  end.

Definition approx_ls_armijo (gamma_max : Q) (max_iter : nat) : res Q :=
  approx_ls_armijo_for max_iter (init_bracket gamma_max) None.
End Bisection.
End LineSearch.

(** The result of a driver: the callback's trace, and the returned iterate or
    the exception raised. *)
Definition finish {S V : Type} (x_of : S -> V) (trace_of : S -> list V)
  (r : S * option exn) : list V * outcome V :=
  match snd r with
  | None => (trace_of (fst r), Returned (x_of (fst r)))
  | Some e => (trace_of (fst r), Raised e)
  end.

(** ** [minimize_FW_L1] *)

Module FW_L1.
Record state : Type := {
  x_t : vec; f_t : Q; grad : vec; L_t : Q; trace : list vec
}.

Section Driver.
Variables (f_grad : oracle vec) (alpha tol : Q) (ls_strategy : string).

(** The oracle step of an iteration: the direction [d_t] and its gap
    [g_t]. *)
Definition direction (s : state) : res (vec * Q) :=
  idx_oracle <- argmax (vabs (grad s)) ;;
  g_idx <- getitem (grad s) idx_oracle ;;
  let mag_oracle := alpha * sign (- g_idx) in
  let d0 := vneg (x_t s) in
  d_idx <- getitem d0 idx_oracle ;;
  d_t <- setitem d0 idx_oracle (d_idx + mag_oracle) ;;
  Ok (d_t, - dot d_t (grad s)).

(** The gap [g_t] an iteration computes at [s]. *)
Definition gap (s : state) : res Q :=
  '(_, g_t) <- direction s ;; Ok g_t.

(** The step size, the curvature estimate and the next loss and
    gradient, by strategy.  No branch handles another name: the step size
    is then unbound where the iterate is updated. *)
Definition line_search (s : state) (d_t : vec) (g_t : Q)
  : res (Q * Q * Q * vec) :=
  if (ls_strategy =? "adaptive")%string then
    backtrack f_grad (f_t s) (x_t s) d_t g_t (L_t s)
      1 2 (999 # 1000) 100
  else if (ls_strategy =? "Lipschitz")%string then
    let d2_t := dot d_t d_t in
    q <- fdiv g_t (d2_t * L_t s) ;;
    let step_size := pymin q 1 in
    let '(f_next, grad_next) := f_grad (axpy (x_t s) step_size d_t) in
    Ok (step_size, L_t s, f_next, grad_next)
  else if (ls_strategy =? "approx_ls")%string then
    step_size <- approx_ls_armijo f_grad (f_t s) (x_t s) d_t 1 100 ;;
    let '(f_next, grad_next) := f_grad (axpy (x_t s) step_size d_t) in
    Ok (step_size, L_t s, f_next, grad_next)
  else Raise UnboundLocalError.

Definition body (it : nat) (s : state) : res (option state) :=
  '(d_t, g_t) <- direction s ;;
  if Qle_bool g_t tol then Ok None
  else
    '(step_size, L_t', f_next, grad_next) <- line_search s d_t g_t ;;
    let x' := axpy (x_t s) step_size d_t in
    Ok (Some {| x_t := x'; f_t := f_next; grad := grad_next;
                L_t := L_t'; trace := trace s ++ [x'] |}).

Definition init (x0 : vec) (L0 : Q) : state :=
  let '(f0, grad0) := f_grad x0 in
  {| x_t := x0; f_t := f0; grad := grad0; L_t := L0; trace := [x0] |}.

End Driver.

Definition minimize_FW_L1 (f_grad : oracle vec) (x0 : vec) (alpha L0 : Q)
  (max_iter : nat) (tol : Q) (ls_strategy : string)
  : list vec * outcome vec :=
  finish x_t trace
    (for_range (body f_grad alpha tol ls_strategy) max_iter 0
       (init f_grad x0 L0)).
End FW_L1.

(** ** Matrices and the matrix-completion objective *)

Definition mat : Type := list vec.

(** A SciPy sparse matrix: [None] marks an entry that is not stored. *)
Definition smat : Type := list (list (option Q)).

Definition madd (x y : mat) : mat := map2 vadd x y.
Definition msub (x y : mat) : mat := map2 vsub x y.
Definition mmul (x y : mat) : mat := map2 vmul x y.
Definition mscale (c : Q) (x : mat) : mat := map (vscale c) x.
Definition mneg (x : mat) : mat := map vneg x.
Definition msum (x : mat) : Q := vsum (map vsum x).
Definition maxpy (x : mat) (gamma : Q) (d : mat) : mat :=
  madd x (mscale gamma d).

(** [x.max()]; an empty array is a [ValueError]. *)
Definition mmax (x : mat) : res Q :=
  match concat x with
  | [] => Raise ValueError
  | a :: l => Ok (fold_left (fun m b => if Qltb m b then b else m) l a)
  end.

(** [A.shape[0] * A.shape[1]]. *)
Definition n_features_of (A : smat) : Z :=
  (Z.of_nat (length A) * Z.of_nat (length (hd [] A)))%Z.

(** [tmp = A - P.multiply(x)], where [P] has a one at each stored entry of
    [A]. *)
Definition residual (A : smat) (x : mat) : mat :=
  map2 (map2 (fun a xi => match a with
                          | Some v => v - 1 * xi
                          | None => 0
                          end)) A x.

(** The local [f_grad] of the trace-norm drivers.  The drivers leave the
    model before calling it when [n_features] is zero. *)
Definition f_grad_trace (A : smat) : oracle mat :=
  fun x =>
    let n := inject_Z (n_features_of A) in
    let tmp := residual A x in
    (half * (msum (mmul tmp tmp) / n),
     map (map (fun t => - t / n)) tmp).

(** The sufficient-decrease test of the inline adaptive searches. *)
Definition sufficient_decrease (f_t f_next g_t step_size L_t d2_t : Q)
  : res bool :=
  lhs <- fdiv (f_next - f_t) step_size ;;
  slack <- fdiv LS_EPS step_size ;;
  Ok (Qle_bool lhs (- (g_t - half * step_size * L_t * d2_t) + slack)).

(** Comparisons against a running bound that starts at [np.inf] ([None]). *)
Definition lt_inf (a : Q) (bound : option Q) : bool :=
  match bound with
  | None => true
  | Some b => Qltb a b
  end.

Definition le_inf (a : Q) (bound : option Q) : bool :=
  match bound with
  | None => true
  | Some b => Qle_bool a b
  end.

(** [l.pop(i)], keeping the list. *)
Definition pop {A : Type} (l : list A) (i : Z) : res (list A) :=
  k <- py_index (length l) i ;;
  Ok (remove_nth l k).

(** ** [minimize_FW_trace] *)

Module FW_trace.
Record state : Type := {
  x_t : mat; f_t : Q; grad : mat; L_t : Q; trace : list mat
}.

Section Driver.
(** [svds M] is [u.dot(vt)] for the triplet that
    [splinalg.svds(M, k=1, maxiter=1000)] returns, or the exception it
    raises. *)
Variable svds : mat -> res mat.
Variables (A : smat) (alpha tol : Q) (ls_strategy : string).

Definition f_grad : oracle mat := f_grad_trace A.

(** [approx_ls_trace]. *)
Section ApproxLsTrace.
Variables (f_t0 : Q) (x : mat) (d_t : mat).

Definition obj (gamma : Q) : Q * Q :=
  let '(f_next, g) := f_grad (maxpy x gamma d_t) in
  (f_next, msum (mmul g d_t)).

Fixpoint approx_ls_trace_for (n : nat) (b : bracket)
  (last : option (Q * Q * Q)) : res Q :=
  match n with
  | O =>
      match last with
      | Some (fc, c, grad_gamma) =>
          if Qltb fc (f_t0 + (1 # 100) * c * grad_gamma) then Ok c
          else Ok ((lbracket b + rbracket b) / 2)
      | None => Raise UnboundLocalError
      end
  | S n' =>
      _ <- assert (Qle_bool (grad_lbracket b * grad_rbracket b) 0) ;;
      let c := (lbracket b + rbracket b) / 2 in
      let '(fc, grad_c) := obj c in
      let b' := bisect b c grad_c in
      if Qltb fc f_t0 then
        if Qltb fc (f_t0 + (1 # 100) * c * grad_c) then Ok c
        else Ok ((lbracket b' + rbracket b') / 2)
      else approx_ls_trace_for n' b' (Some (fc, c, grad_c))
  end.

Definition approx_ls_trace (gamma_max : Q) (max_iter : nat) : res Q :=
  approx_ls_trace_for max_iter
    {| lbracket := 0; grad_lbracket := snd (obj 0);
       rbracket := gamma_max; grad_rbracket := snd (obj gamma_max) |}
    None.
End ApproxLsTrace.

Definition direction (s : state) : res (mat * Q) :=
  uvt <- svds (mneg (grad s)) ;;
  let s_t := mscale alpha uvt in
  let d_t := msub s_t (x_t s) in
  Ok (d_t, - msum (mmul (grad s) d_t)).

(** The gap [g_t] an iteration computes at [s]. *)
Definition gap (s : state) : res Q :=
  '(_, g_t) <- direction s ;; Ok g_t.

(** One trial of the inline adaptive search. *)
Definition adaptive_trial (s : state) (d_t : mat) (g_t d2_t : Q)
  (i : nat) (L : Q) : res (trial (Q * Q * mat)) :=
  q <- fdiv g_t (d2_t * L) ;;
  let step_size := pymin q 1 in
  let '(f_next, grad_next) := f_grad (maxpy (x_t s) step_size d_t) in
  ok <- sufficient_decrease (f_t s) f_next g_t step_size L d2_t ;;
  if ok then
    Ok (Break (if Nat.eqb i 0 then L * (999 # 1000) else L)
              (step_size, f_next, grad_next))
  else Ok (Next (L * 2) (step_size, f_next, grad_next)).

Definition line_search (s : state) (d_t : mat) (g_t : Q)
  : res (Q * (Q * Q * mat)) :=
  if (ls_strategy =? "adaptive")%string then
    let d2_t := msum (mmul d_t d_t) in
    for_trials (adaptive_trial s d_t g_t d2_t) 100 0 (L_t s) None
  else if (ls_strategy =? "Lipschitz")%string then
    let d2_t := msum (mmul d_t d_t) in
    q <- fdiv g_t (d2_t * L_t s) ;;
    let step_size := pymin q 1 in
    let '(f_next, grad_next) := f_grad (maxpy (x_t s) step_size d_t) in
    Ok (L_t s, (step_size, f_next, grad_next))
  else if (ls_strategy =? "approx_ls")%string then
    step_size <- approx_ls_trace (f_t s) (x_t s) d_t 1 100 ;;
    let '(f_next, grad_next) := f_grad (maxpy (x_t s) step_size d_t) in
    Ok (L_t s, (step_size, f_next, grad_next))
  else Raise ValueError.

Definition body (it : nat) (s : state) : res (option state) :=
  '(d_t, g_t) <- direction s ;;
  if Qle_bool g_t tol then Ok None
  else
    '(L_t', (step_size, f_next, grad_next)) <- line_search s d_t g_t ;;
    let x' := maxpy (x_t s) step_size d_t in
    Ok (Some {| x_t := x'; f_t := f_next; grad := grad_next;
                L_t := L_t'; trace := trace s ++ [x'] |}).

Definition init (x0 : mat) (L0 : Q) : state :=
  let '(f0, grad0) := f_grad x0 in
  {| x_t := x0; f_t := f0; grad := grad0; L_t := L0; trace := [x0] |}.

End Driver.

Definition minimize_FW_trace (svds : mat -> res mat) (A : smat) (x0 : mat)
  (alpha L0 : Q) (max_iter : nat) (tol : Q) (ls_strategy : string)
  : list mat * outcome mat :=
  if (n_features_of A =? 0)%Z then ([x0], Raised NonFinite)
  else finish x_t trace
         (for_range (body svds A alpha tol ls_strategy) max_iter 0
            (init A x0 L0)).
End FW_trace.

(** ** [minimize_PFW_trace] *)

Module PFW_trace.
Record state : Type := {
  x_t : mat; f_t : Q; grad : mat; L_t : Q;
  active_set : list mat; coefs_active_set : list Q;
  trace : list mat
}.

(** What an iteration selects before the line search. *)
Record selection : Type := {
  s_t : mat; atom_in_activeset : bool; idx_min_vt_st : Z;
  v_t : mat; vt_idx : Z; gamma_max : Q; d_t : mat; g_t : Q
}.

(** The scan for the active atom closest to the oracle vertex. *)
Fixpoint nearest_atom (s : mat) (atoms : list mat) (i : nat)
  (min_vt_st : option Q) (idx : Z) : res (option Q * Z) :=
  match atoms with
  | [] => Ok (min_vt_st, idx)
  | a :: rest =>
      let tmp := msub s a in
      tmp_norm <- mmax (mmul tmp tmp) ;;
      if lt_inf tmp_norm min_vt_st
      then nearest_atom s rest (S i) (Some tmp_norm) (Z.of_nat i)
      else nearest_atom s rest (S i) min_vt_st idx
  end.

(** The scan for the away atom: the last atom of least
    [grad.multiply(x_t - atom).sum()]. *)
Fixpoint away_atom (g x : mat) (atoms : list mat) (i : nat)
  (v : mat) (vt_loss : option Q) (idx : Z) : mat * Z :=
  match atoms with
  | [] => (v, idx)
  | tmp_vt :: rest =>
      let tmp_vt_loss := msum (mmul g (msub x tmp_vt)) in
      if le_inf tmp_vt_loss vt_loss
      then away_atom g x rest (S i) tmp_vt (Some tmp_vt_loss) (Z.of_nat i)
      else away_atom g x rest (S i) v vt_loss idx
  end.

(** The update of the active set after a step, first for the toward
    atom: it gains the step size, or is appended with it. *)
Definition toward_update (sel : selection) (step_size : Q)
  (atoms : list mat) (coefs : list Q) : res (list mat * list Q) :=
  if atom_in_activeset sel then
    c <- getitem coefs (idx_min_vt_st sel) ;;
    coefs' <- setitem coefs (idx_min_vt_st sel) (c + step_size) ;;
    Ok (atoms, coefs')
  else Ok (atoms ++ [s_t sel], coefs ++ [step_size]).

(** Then for the away atom: it is popped on a drop step and loses the
    step size otherwise. *)
Definition away_update (sel : selection) (step_size : Q)
  (atoms : list mat) (coefs : list Q) : res (list mat * list Q) :=
  if Qeq_bool step_size (gamma_max sel) then
    atoms' <- pop atoms (vt_idx sel) ;;
    coefs' <- pop coefs (vt_idx sel) ;;
    Ok (atoms', coefs')
  else
    c <- getitem coefs (vt_idx sel) ;;
    coefs' <- setitem coefs (vt_idx sel) (c - step_size) ;;
    Ok (atoms, coefs').

Definition update_active_set (sel : selection) (step_size : Q)
  (atoms : list mat) (coefs : list Q) : res (list mat * list Q) :=
  '(atoms1, coefs1) <- toward_update sel step_size atoms coefs ;;
  away_update sel step_size atoms1 coefs1.

Section Driver.
(** [svds M] is [u.dot(vt)] for the triplet that
    [splinalg.svds(M, k=1)] returns, or the exception it raises. *)
Variable svds : mat -> res mat.
(** The call [approx_ls(f_t, f_grad, x_t, d_t, g_t, L_t)] on matrices:
    its [d_t.T.dot(grad)] mixes a dense and a sparse operand and is not
    modelled. *)
Variable approx_ls_mat : Q -> mat -> mat -> Q -> Q -> res Q.
Variables (A : smat) (alpha : Q) (ls_strategy : string).

Definition f_grad : oracle mat := f_grad_trace A.

Definition select (s : state) : res selection :=
  uvt <- svds (mneg (grad s)) ;;
  let s0 := mscale alpha uvt in
  '(min_vt_st, idx_min) <-
    nearest_atom s0 (active_set s) 0 None (- (1))%Z ;;
  let in_set := match min_vt_st with
                | Some m => Qltb m (1 # 10000)
                | None => false
                end in
  s1 <- (if in_set then getitem (active_set s) idx_min else Ok s0) ;;
  v0 <- getitem (active_set s) 0%Z ;;
  let '(v, idx) :=
    away_atom (grad s) (x_t s) (active_set s) 0 v0 None (- (1))%Z in
  if (idx <? 0)%Z then Raise ValueError
  else
    gmax <- getitem (coefs_active_set s) idx ;;
    let d := msub s1 v in
    Ok {| s_t := s1; atom_in_activeset := in_set;
          idx_min_vt_st := idx_min; v_t := v; vt_idx := idx;
          gamma_max := gmax; d_t := d;
          g_t := - msum (mmul (grad s) d) |}.

(** The gap [g_t] an iteration computes at [s]. *)
Definition gap (s : state) : res Q :=
  sel <- select s ;; Ok (g_t sel).

(** One trial of the inline adaptive search. *)
Definition adaptive_trial (s : state) (sel : selection) (d2_t : Q)
  (i : nat) (L : Q) : res (trial (Q * Q * mat)) :=
  q <- fdiv (g_t sel) (d2_t * L) ;;
  let step_size := pymin q (gamma_max sel) in
  let '(f_next, grad_next) :=
    f_grad (maxpy (x_t s) step_size (d_t sel)) in
  ok <- sufficient_decrease (f_t s) f_next (g_t sel) step_size L d2_t ;;
  if ok then
    Ok (Break (if Nat.eqb i 0 then L * (99 # 100) else L)
              (step_size, f_next, grad_next))
  else Ok (Next (L * 2) (step_size, f_next, grad_next)).

Definition line_search (s : state) (sel : selection)
  : res (Q * (Q * Q * mat)) :=
  if (ls_strategy =? "adaptive")%string then
    let d2_t := msum (mmul (d_t sel) (d_t sel)) in
    for_trials (adaptive_trial s sel d2_t) 100 0 (L_t s) None
  else if (ls_strategy =? "Lipschitz")%string then
    let d2_t := msum (mmul (d_t sel) (d_t sel)) in
    q <- fdiv (g_t sel) (d2_t * L_t s) ;;
    let step_size := pymin q (gamma_max sel) in
    let '(f_next, grad_next) :=
      f_grad (maxpy (x_t s) step_size (d_t sel)) in
    Ok (L_t s, (step_size, f_next, grad_next))
  else if (ls_strategy =? "approx_ls")%string then
    step_size <-
      approx_ls_mat (f_t s) (x_t s) (d_t sel) (g_t sel) (L_t s) ;;
    let '(f_next, grad_next) :=
      f_grad (maxpy (x_t s) step_size (d_t sel)) in
    Ok (L_t s, (step_size, f_next, grad_next))
  else Raise ValueError.

(** The test [g_t <= tol] guards a [pass]: the loop never breaks. *)
Definition body (it : nat) (s : state) : res (option state) :=
  sel <- select s ;;
  '(L_t', (step_size, f_next, grad_next)) <- line_search s sel ;;
  let x' := maxpy (x_t s) step_size (d_t sel) in
  '(atoms', coefs') <-
    update_active_set sel step_size (active_set s) (coefs_active_set s) ;;
  Ok (Some {| x_t := x'; f_t := f_next; grad := grad_next; L_t := L_t';
              active_set := atoms'; coefs_active_set := coefs';
              trace := trace s ++ [x'] |}).

(** [np.zeros(A.shape)]. *)
Definition origin : mat :=
  repeat (zeros (length (hd [] A))) (length A).

Definition init (x0 : mat) (L0 : Q) : state :=
  let '(f0, grad0) := f_grad x0 in
  {| x_t := x0; f_t := f0; grad := grad0; L_t := L0;
     active_set := [origin]; coefs_active_set := [1];
     trace := [x0] |}.

End Driver.

(** The argument [tol] is read by the driver in a test that guards a
    [pass] only. *)
Definition minimize_PFW_trace (svds : mat -> res mat)
  (approx_ls_mat : Q -> mat -> mat -> Q -> Q -> res Q) (A : smat) (x0 : mat)
  (alpha L0 : Q) (max_iter : nat) (tol : Q) (ls_strategy : string)
  : list mat * outcome mat :=
  if (n_features_of A =? 0)%Z then ([x0], Raised NonFinite)
  else finish x_t trace
         (for_range (body svds approx_ls_mat A alpha ls_strategy) max_iter 0
            (init A x0 L0)).
End PFW_trace.

(** ** [max_active] and the drivers with the compact L1 active set *)

(** A running maximum that starts at [-np.inf] ([None]). *)
Definition gt_ninf (a : Q) (bound : option Q) : bool :=
  match bound with
  | None => true
  | Some b => Qltb b a
  end.

(** [max_active]: the function is compiled by Numba, which does not check
    bounds; its indices are in range when [grad] has [n_features] entries
    and [active_set] has [2 * n_features + 1]. *)
Section MaxActive.
Variables (grad : vec) (active_set : list bool) (n_features : nat).

Definition scan_pos (acc : option Q * Z) (j : nat) : option Q * Z :=
  if nth j active_set false then
    if gt_ninf (nth j grad 0) (fst acc)
    then (Some (nth j grad 0), Z.of_nat j)
    else acc
  else acc.

Definition scan_neg (acc : option Q * Z) (j : nat) : option Q * Z :=
  if nth j active_set false then
    if gt_ninf (- nth (j mod n_features) grad 0) (fst acc)
    then (Some (- nth (j mod n_features) grad 0), Z.of_nat j)
    else acc
  else acc.

Definition max_active (include_zero : bool) : option Q * Z :=
  let acc1 := fold_left scan_pos (seq 0 n_features) (None, (- (1))%Z) in
  let acc2 := fold_left scan_neg (seq n_features n_features) acc1 in
  if include_zero then
    if (match fst acc2 with None => true | Some m => Qltb m 0 end)
       && nth (2 * n_features) active_set false
    then (Some 0, Z.of_nat (2 * n_features))
    else acc2
  else acc2.
End MaxActive.

(** [np.zeros(2 * n_features + 1, dtype=np.bool)] with the last slot, the
    origin, set. *)
Definition initial_active_set (n_features : nat) : list bool :=
  repeat false (2 * n_features) ++ [true].

(** ** [minimize_PFW_L1] *)

Module PFW_L1.
Record state : Type := {
  x_t : vec; f_t : Q; grad : vec; L_t : Q;
  active_set : list bool; weight_zero : Q;
  trace : list vec
}.

Record selection : Type := {
  idx_oracle : Z; mag_oracle : Q;
  max_grad_active_idx : Z; mag_away : Q;
  is_away_zero : bool; gamma_max : Q; g_t : Q
}.

Section Driver.
Variables (f_grad : oracle vec) (alpha tol : Q) (ls_strategy : string).
Variable n_features : nat.

Definition nf : Z := Z.of_nat n_features.

Definition select (s : state) : res selection :=
  idx0 <- argmax (vabs (grad s)) ;;
  g0 <- getitem (grad s) idx0 ;;
  let idx := if Qltb 0 g0 then (idx0 + nf)%Z else idx0 in
  io <- pymod idx nf ;;
  g_o <- getitem (grad s) io ;;
  let mag_o := alpha * sign (- g_o) in
  let '(_, away) := max_active (grad s) (active_set s) n_features true in
  let mag_a := alpha * sign_Z (nf - away) in
  let away_zero := (away =? 2 * nf)%Z in
  ia <- pymod away nf ;;
  gmax <- (if away_zero then Ok (weight_zero s)
           else x_a <- getitem (x_t s) ia ;; fdiv (Qabs x_a) alpha) ;;
  _ <- assert (Qltb 0 gmax) ;;
  g_a <- getitem (grad s) ia ;;
  Ok {| idx_oracle := idx; mag_oracle := mag_o;
        max_grad_active_idx := away; mag_away := mag_a;
        is_away_zero := away_zero; gamma_max := gmax;
        g_t := g_a * mag_a - g_o * mag_o |}.

(** The gap [g_t] an iteration computes at [s]. *)
Definition gap (s : state) : res Q :=
  sel <- select s ;; Ok (g_t sel).

(** [x_next] for a step size: the oracle coordinate is written first,
    the away coordinate second. *)
Definition move (s : state) (sel : selection) (step_size : Q) : res vec :=
  io <- pymod (idx_oracle sel) nf ;;
  x_o <- getitem (x_t s) io ;;
  x1 <- setitem (x_t s) io (x_o + step_size * mag_oracle sel) ;;
  if is_away_zero sel then Ok x1
  else
    ia <- pymod (max_grad_active_idx sel) nf ;;
    x_a <- getitem (x_t s) ia ;;
    setitem x1 ia (x_a - step_size * mag_away sel).

(** One trial of the adaptive search; the entries of [x_next] written
    by a trial are the same at every trial. *)
Definition adaptive_trial (s : state) (sel : selection) (d2_t : Q)
  (i : nat) (L : Q) : res (trial (Q * Q * vec * vec)) :=
  q <- fdiv (g_t sel) (d2_t * L) ;;
  let step_size := pymin q (gamma_max sel) in
  x_next <- move s sel step_size ;;
  let '(f_next, grad_next) := f_grad x_next in
  if Qltb step_size (1 # 10 ^ 7) then
    Ok (Break L (step_size, f_next, grad_next, x_next))
  else
    ok <- sufficient_decrease (f_t s) f_next (g_t sel) step_size L d2_t ;;
    if ok then
      Ok (Break (if Nat.eqb i 0 then L * (999 # 1000) else L)
                (step_size, f_next, grad_next, x_next))
    else Ok (Next (L * 2) (step_size, f_next, grad_next, x_next)).

Definition line_search (s : state) (sel : selection) (d2_t : Q)
  : res (Q * (Q * Q * vec * vec)) :=
  if (ls_strategy =? "adaptive")%string then
    for_trials (adaptive_trial s sel d2_t) 100 0 (L_t s) None
  else if (ls_strategy =? "Lipschitz")%string then
    q <- fdiv (g_t sel) (d2_t * L_t s) ;;
    let step_size := pymin q (gamma_max sel) in
    x_next <- move s sel step_size ;;
    let '(f_next, grad_next) := f_grad x_next in
    Ok (L_t s, (step_size, f_next, grad_next, x_next))
  else Raise ValueError.

(** The bookkeeping after a step: the slot of the oracle atom, and,
    from the second iteration on, the weight of the origin or the slot
    of the away atom. *)
Definition update_active_set (it : nat) (s : state) (sel : selection)
  (step_size : Q) (x' : vec) : res (list bool * Q) :=
  io <- pymod (idx_oracle sel) nf ;;
  x_o <- getitem x' io ;;
  act1 <- setitem (active_set s) (idx_oracle sel)
            (negb (Qeq_bool x_o 0)) ;;
  if (0 <? it)%nat then
    if is_away_zero sel then
      let w := weight_zero s - step_size in
      if Qeq_bool w 0 then
        act2 <- setitem act1 (2 * nf)%Z false ;;
        Ok (act2, w)
      else Ok (act1, w)
    else
      ia <- pymod (max_grad_active_idx sel) nf ;;
      x_a <- getitem x' ia ;;
      act2 <- setitem act1 (max_grad_active_idx sel)
                (negb (Qeq_bool x_a 0)) ;;
      Ok (act2, weight_zero s)
  else Ok (act1, weight_zero s).

Definition body (it : nat) (s : state) : res (option state) :=
  sel <- select s ;;
  if Qle_bool (g_t sel) tol then Ok None
  else if (idx_oracle sel =? max_grad_active_idx sel)%Z
  then Raise ValueError
  else
    let d2_t := 2 * alpha ^ 2 in
    '(L_t', (step_size, f_next, grad_next, x_next)) <-
      line_search s sel d2_t ;;
    if Qle_bool (10 ^ 10) L_t' then Raise ValueError
    else
      '(act', w') <- update_active_set it s sel step_size x_next ;;
      Ok (Some {| x_t := x_next; f_t := f_next; grad := grad_next;
                  L_t := L_t'; active_set := act'; weight_zero := w';
                  trace := trace s ++ [x_next] |}).

Definition init (L0 : Q) : state :=
  let x := zeros n_features in
  let '(f0, grad0) := f_grad x in
  {| x_t := x; f_t := f0; grad := grad0; L_t := L0;
     active_set := initial_active_set n_features; weight_zero := 1;
     trace := [x] |}.
End Driver.

(** Of [x0] the driver reads [x0.size] and [x0.shape[0]], for a vector
    both its length. *)
Definition minimize_PFW_L1 (f_grad : oracle vec) (x0 : vec) (alpha L0 : Q)
  (max_iter : nat) (tol : Q) (ls_strategy : string)
  : list vec * outcome vec :=
  let n_features := length x0 in
  finish x_t trace
    (for_range (body f_grad alpha tol ls_strategy n_features)
       max_iter 0 (init f_grad n_features L0)).
End PFW_L1.

(** ** [minimize_AFW_L1] *)

Module AFW_L1.
Record state : Type := {
  x_t : vec; f_t : Q; grad : vec; L_t : Q;
  active_set : list bool;
  trace : list vec
}.

Record selection : Type := {
  idx_oracle : Z; max_grad_active_idx : Z;
  gt_fw : Q; gt_a : Q;
  d_t : vec; gamma_max : Q; g_t : Q
}.

Section Driver.
Variables (f_grad : oracle vec) (alpha tol : Q) (ls_strategy : string).
Variable n_features : nat.

Definition nf : Z := Z.of_nat n_features.

(** The two gaps of an iteration: toward the oracle atom and away from
    the worst active atom. *)
Definition gaps (s : state) : res (Z * Q * Z * Q * Q * Q) :=
  idx0 <- argmax (vabs (grad s)) ;;
  g0 <- getitem (grad s) idx0 ;;
  let idx := if Qltb 0 g0 then (idx0 + nf)%Z else idx0 in
  io <- pymod idx nf ;;
  g_o <- getitem (grad s) io ;;
  let mag_o := alpha * sign (- g_o) in
  let '(_, away) := max_active (grad s) (active_set s) n_features true in
  let mag_a := alpha * sign_Z (nf - away) in
  let x_grad := dot (grad s) (x_t s) in
  let fw := - mag_o * g_o + x_grad in
  ia <- pymod away nf ;;
  g_a <- getitem (grad s) ia ;;
  let aw := - x_grad + mag_a * g_a in
  Ok (idx, mag_o, away, mag_a, fw, aw).

Definition select (s : state) : res selection :=
  '(idx, mag_o, away, mag_a, fw, aw) <- gaps s ;;
  _ <- assert (Qle_bool 0 fw) ;;
  if Qle_bool aw fw then
    io <- pymod idx nf ;;
    let d0 := vneg (x_t s) in
    d_o <- getitem d0 io ;;
    d <- setitem d0 io (d_o + mag_o) ;;
    Ok {| idx_oracle := idx; max_grad_active_idx := away;
          gt_fw := fw; gt_a := aw;
          d_t := d; gamma_max := 1; g_t := fw |}
  else
    ia <- pymod away nf ;;
    d_a <- getitem (x_t s) ia ;;
    d <- setitem (x_t s) ia (d_a - mag_a) ;;
    x_a <- getitem (x_t s) ia ;;
    alpha_v <- fdiv (Qabs x_a) alpha ;;
    gmax <- fdiv alpha_v (1 - alpha_v) ;;
    Ok {| idx_oracle := idx; max_grad_active_idx := away;
          gt_fw := fw; gt_a := aw;
          d_t := d; gamma_max := gmax; g_t := aw |}.

(** The gap [g_t] an iteration computes at [s]. *)
Definition gap (s : state) : res Q :=
  sel <- select s ;; Ok (g_t sel).

Definition adaptive_trial (s : state) (sel : selection) (d2_t : Q)
  (i : nat) (L : Q) : res (trial (Q * Q * vec * vec)) :=
  q <- fdiv (g_t sel) (d2_t * L) ;;
  let step_size := pymin q (gamma_max sel) in
  let x_next := axpy (x_t s) step_size (d_t sel) in
  let '(f_next, grad_next) := f_grad x_next in
  if Qltb step_size (1 # 10 ^ 7) then
    Ok (Break L (step_size, f_next, grad_next, x_next))
  else
    ok <- sufficient_decrease (f_t s) f_next (g_t sel) step_size L d2_t ;;
    if ok then
      Ok (Break (if Nat.eqb i 0 then L * (999 # 1000) else L)
                (step_size, f_next, grad_next, x_next))
    else Ok (Next (L * 2) (step_size, f_next, grad_next, x_next)).

Definition line_search (s : state) (sel : selection) (d2_t : Q)
  : res (Q * (Q * Q * vec * vec)) :=
  if (ls_strategy =? "adaptive")%string then
    for_trials (adaptive_trial s sel d2_t) 100 0 (L_t s) None
  else if (ls_strategy =? "Lipschitz")%string then
    q <- fdiv (g_t sel) (d2_t * L_t s) ;;
    let step_size := pymin q (gamma_max sel) in
    let x_next := axpy (x_t s) step_size (d_t sel) in
    let '(f_next, grad_next) := f_grad x_next in
    Ok (L_t s, (step_size, f_next, grad_next, x_next))
  else Raise ValueError.

(** The slots of the oracle atom and of the away atom follow the
    entries of the new iterate. *)
Definition update_active_set (s : state) (sel : selection) (x' : vec)
  : res (list bool) :=
  io <- pymod (idx_oracle sel) nf ;;
  x_o <- getitem x' io ;;
  act1 <- setitem (active_set s) (idx_oracle sel)
            (negb (Qeq_bool x_o 0)) ;;
  ia <- pymod (max_grad_active_idx sel) nf ;;
  x_a <- getitem x' ia ;;
  setitem act1 (max_grad_active_idx sel) (negb (Qeq_bool x_a 0)).

Definition body (it : nat) (s : state) : res (option state) :=
  sel <- select s ;;
  if Qle_bool (g_t sel) tol then Ok None
  else
    let d2_t := dot (d_t sel) (d_t sel) in
    '(L_t', (step_size, f_next, grad_next, x_next)) <-
      line_search s sel d2_t ;;
    if Qle_bool (10 ^ 10) L_t' then Raise ValueError
    else
      act' <- update_active_set s sel x_next ;;
      Ok (Some {| x_t := x_next; f_t := f_next; grad := grad_next;
                  L_t := L_t'; active_set := act';
                  trace := trace s ++ [x_next] |}).

Definition init (L0 : Q) : state :=
  let x := zeros n_features in
  let '(f0, grad0) := f_grad x in
  {| x_t := x; f_t := f0; grad := grad0; L_t := L0;
     active_set := initial_active_set n_features;
     trace := [x] |}.
End Driver.

Definition minimize_AFW_L1 (f_grad : oracle vec) (x0 : vec) (alpha L0 : Q)
  (max_iter : nat) (tol : Q) (ls_strategy : string)
  : list vec * outcome vec :=
  let n_features := length x0 in
  finish x_t trace
    (for_range (body f_grad alpha tol ls_strategy n_features)
       max_iter 0 (init f_grad n_features L0)).
End AFW_L1.

(** * Scenarios *)

(** The quadratic objective [0.5 * c * ||x - b||^2] with its gradient. *)
Definition quad (c : Q) (b : vec) : oracle vec :=
  fun x => (half * c * dot (vsub x b) (vsub x b), vscale c (vsub x b)).

(** A fully observed two-by-two matrix whose only nonzero entry is its first
    one. *)
Definition A_corner (a : Q) : smat := [[Some a; Some 0]; [Some 0; Some 0]].

(** The truncated SVD on the matrices whose only nonzero entry is a
    positive first entry: both singular vectors are the first unit vector,
    and [u.dot(vt)] is the first unit matrix.  Other arguments are not
    covered. *)
Definition svds_corner (m : mat) : res mat :=
  match m with
  | [[p; z1]; [z2; z3]] =>
      if Qltb 0 p && Qeq_bool z1 0 && Qeq_bool z2 0 && Qeq_bool z3 0
      then Ok [[1; 0]; [0; 0]]
      else Raise ArpackError
  | _ => Raise ArpackError
  end.




(** The first iteration of [minimize_PFW_trace] on [A_corner 4] from the
    origin, with radius one and the Lipschitz strategy: the state before
    and the state after. *)
Definition pfw_trace_init_state : PFW_trace.state :=
  PFW_trace.init (A_corner 4) [[0; 0]; [0; 0]] 1.


(** Vectors and matrices whose entries are all zero. *)
Definition vzero (x : vec) : Prop := Forall (fun a => a == 0) x.
Definition mzero (x : mat) : Prop := Forall vzero x.








(** ** Notions for the further properties *)

(** The value [max_active] compares for the slot [j]: the gradient entry for
    a positive slot, its opposite for a negative slot. *)
Definition slot_value (grad : vec) (n j : nat) : Q :=
  if (j <? n)%nat then nth j grad 0 else - nth (j mod n) grad 0.






(** An oracle on vectors of [n] entries returns gradients of [n]
    entries. *)
Definition oracle_shaped (n : nat) (f_grad : oracle vec) : Prop :=
  forall x, length x = n -> length (snd (f_grad x)) = n.

(** What the away scan of [minimize_PFW_trace] compares:
    [grad.multiply(x_t - atom).sum()]. *)
Definition away_loss (g x atom : mat) : Q := msum (mmul g (msub x atom)).

(** What its scan for the nearest atom compares:
    [((s_t - atom) * (s_t - atom)).max()]. *)
Definition atom_distance (s atom : mat) : res Q :=
  mmax (mmul (msub s atom) (msub s atom)).



(** The arrays of [minimize_FW_L1] have the size of [x0]. *)
Definition fw_l1_shaped (n : nat) (s : FW_L1.state) : Prop :=
  length (FW_L1.x_t s) = n /\ length (FW_L1.grad s) = n.

(** * Properties *)

(** ** Comparisons and the error monad *)

Lemma Qltb_true (a b : Q) : Qltb a b = true <-> a < b.
Proof.
  unfold Qltb. rewrite negb_true_iff. split; intro H.
  - apply Qnot_le_lt. intro Hle. apply Qle_bool_iff in Hle. congruence.
  - destruct (Qle_bool b a) eqn:E; [|reflexivity].
    apply Qle_bool_iff in E. exfalso. apply (Qlt_not_le _ _ H E).
Qed.

Lemma Qltb_false (a b : Q) : Qltb a b = false <-> b <= a.
Proof.
  unfold Qltb. rewrite negb_false_iff. apply Qle_bool_iff.
Qed.

Lemma Qle_bool_false (a b : Q) : Qle_bool a b = false <-> ~ a <= b.
Proof.
  split; intro H.
  - intro Hle. apply Qle_bool_iff in Hle. congruence.
  - destruct (Qle_bool a b) eqn:E; [|reflexivity].
    apply Qle_bool_iff in E. contradiction.
Qed.



Lemma bind_ok {A B : Type} (m : res A) (k : A -> res B) (b : B) :
  bind m k = Ok b -> exists a, m = Ok a /\ k a = Ok b.
Proof.
  destruct m as [a|e]; simpl; intro H; [eauto | discriminate].
Qed.


(** ** The iteration loop *)

(** A loop that reaches [s'] in [k] iterations and then either has used its
    budget or breaks, is left in [s'] with no exception. *)
Lemma for_range_reach {St : Type} (body : nat -> St -> res (option St))
  (n k it : nat) (s s' : St) :
  (k <= n)%nat ->
  reach body k it s s' ->
  k = n \/ body (it + k)%nat s' = Ok None ->
  for_range body n it s = (s', None).
Proof.
  revert n it s. induction k as [|k IH]; intros n it s Hle Hr Hend.
  - simpl in Hr. subst s'. destruct Hend as [<-|Hb]; [reflexivity|].
    destruct n; [reflexivity|]. simpl.
    rewrite Nat.add_0_r in Hb. rewrite Hb. reflexivity.
  - destruct Hr as (s1 & Hb & Hr). destruct n; [lia|].
    simpl. rewrite Hb. apply IH; [lia|exact Hr|].
    destruct Hend as [E|E]; [left; lia|right].
    replace (S it + k)%nat with (it + S k)%nat by lia. exact E.
Qed.

(** A loop that reaches [s'] within its budget and whose next iteration
    raises, is left in [s'] with that exception. *)
Lemma for_range_raise {St : Type} (body : nat -> St -> res (option St))
  (n k it : nat) (s s' : St) (e : exn) :
  (k < n)%nat ->
  reach body k it s s' ->
  body (it + k)%nat s' = Raise e ->
  for_range body n it s = (s', Some e).
Proof.
  revert n it s. induction k as [|k IH]; intros n it s Hlt Hr Hb.
  - simpl in Hr. subst s'. destruct n; [lia|]. simpl.
    rewrite Nat.add_0_r in Hb. rewrite Hb. reflexivity.
  - destruct Hr as (s1 & Hb1 & Hr). destruct n; [lia|].
    simpl. rewrite Hb1. apply IH; [lia|exact Hr|].
    replace (S it + k)%nat with (it + S k)%nat by lia. exact Hb.
Qed.

(** ** Stopping rule *)


Lemma fw_l1_break (f_grad : oracle vec) (alpha tol : Q) (ls : string)
  (it : nat) (s : FW_L1.state) (g : Q) :
  FW_L1.gap alpha s = Ok g -> g <= tol ->
  FW_L1.body f_grad alpha tol ls it s = Ok None.
Proof.
  unfold FW_L1.gap, FW_L1.body. intros Hg Hle.
  destruct (FW_L1.direction alpha s) as [[d g']|e]; simpl in *;
    [|discriminate].
  inversion Hg; subst. apply Qle_bool_iff in Hle. rewrite Hle. reflexivity.
Qed.


Lemma fw_trace_break (svds : mat -> res mat) (A : smat) (alpha tol : Q)
  (ls : string) (it : nat) (s : FW_trace.state) (g : Q) :
  FW_trace.gap svds alpha s = Ok g -> g <= tol ->
  FW_trace.body svds A alpha tol ls it s = Ok None.
Proof.
  unfold FW_trace.gap, FW_trace.body. intros Hg Hle.
  destruct (FW_trace.direction svds alpha s) as [[d g']|e]; simpl in *;
    [|discriminate].
  inversion Hg; subst. apply Qle_bool_iff in Hle. rewrite Hle. reflexivity.
Qed.


Lemma pfw_l1_break (f_grad : oracle vec) (alpha tol : Q) (ls : string)
  (n : nat) (it : nat) (s : PFW_L1.state) (g : Q) :
  PFW_L1.gap alpha n s = Ok g -> g <= tol ->
  PFW_L1.body f_grad alpha tol ls n it s = Ok None.
Proof.
  unfold PFW_L1.gap, PFW_L1.body. intros Hg Hle.
  destruct (PFW_L1.select alpha n s) as [sel|e]; simpl in *; [|discriminate].
  inversion Hg; subst. apply Qle_bool_iff in Hle. rewrite Hle. reflexivity.
Qed.


Lemma afw_l1_break (f_grad : oracle vec) (alpha tol : Q) (ls : string)
  (n : nat) (it : nat) (s : AFW_L1.state) (g : Q) :
  AFW_L1.gap alpha n s = Ok g -> g <= tol ->
  AFW_L1.body f_grad alpha tol ls n it s = Ok None.
Proof.
  unfold AFW_L1.gap, AFW_L1.body. intros Hg Hle.
  destruct (AFW_L1.select alpha n s) as [sel|e]; simpl in *; [|discriminate].
  inversion Hg; subst. apply Qle_bool_iff in Hle. rewrite Hle. reflexivity.
Qed.


(** [minimize_PFW_trace] has no [break]: an iteration goes on or raises. *)
Lemma pfw_trace_never_breaks (svds : mat -> res mat)
  (approx_ls_mat : Q -> mat -> mat -> Q -> Q -> res Q) (A : smat)
  (alpha : Q) (ls : string) (it : nat) (s : PFW_trace.state) :
  PFW_trace.body svds approx_ls_mat A alpha ls it s <> Ok None.
Proof.
  unfold PFW_trace.body.
  destruct (PFW_trace.select svds alpha s) as [sel|e]; simpl;
    [|discriminate].
  destruct (PFW_trace.line_search approx_ls_mat A ls s sel)
    as [[L [[st fn] gn]]|e]; simpl; [|discriminate].
  destruct (PFW_trace.update_active_set sel st (PFW_trace.active_set s)
              (PFW_trace.coefs_active_set s)) as [[a c]|e]; simpl;
    discriminate.
Qed.

(** ** C1: the stopping rule of the drivers *)




(** ** C3: the curvature estimate in [backtrack] *)

Section BacktrackRejected.
Variables (f_grad : oracle vec) (f_t : Q) (x_t d_t : vec) (g_t L_t : Q).
Variables (gamma_max ratio_increase ratio_decrease q : Q).

Let step_size : Q := pymin q gamma_max.
Let rhs : Q :=
  f_t - step_size * g_t + half * (step_size ^ 2) * L_t * dot d_t d_t.

Hypothesis Hq : fdiv g_t (dot d_t d_t * L_t) = Ok q.
Hypothesis Hrej : ~ fst (f_grad (axpy x_t step_size d_t)) <= rhs.

Lemma backtrack_for_S (n i : nat) (L : Q) (last : option (Q * Q * vec)) :
  backtrack_for f_grad f_t x_t d_t g_t gamma_max ratio_increase
    ratio_decrease (S n) i L last
  = (q0 <- fdiv g_t (dot d_t d_t * L) ;;
     let st := pymin q0 gamma_max in
     let r := f_t - st * g_t + half * (st ^ 2) * L * dot d_t d_t in
     let '(f_next, grad_next) := f_grad (axpy x_t st d_t) in
     if Qle_bool f_next r then
       Ok (st, (if Nat.eqb i 0 then L * ratio_decrease else L),
           f_next, grad_next)
     else backtrack_for f_grad f_t x_t d_t g_t gamma_max ratio_increase
            ratio_decrease n (S i) L (Some (st, f_next, grad_next))).
Proof. reflexivity. Qed.

Lemma backtrack_for_rejected (n i : nat) (last : option (Q * Q * vec)) :
  backtrack_for f_grad f_t x_t d_t g_t gamma_max ratio_increase
    ratio_decrease (S n) i L_t last
  = Ok (step_size, L_t * ratio_increase,
        fst (f_grad (axpy x_t step_size d_t)),
        snd (f_grad (axpy x_t step_size d_t))).
Proof.
  revert i last. induction n as [|n IH]; intros i last;
    rewrite backtrack_for_S; rewrite Hq; unfold bind; cbv beta zeta;
    fold step_size; unfold rhs in Hrej;
    destruct (f_grad (axpy x_t step_size d_t)) as [fn gn];
    cbn [fst snd] in *; apply Qle_bool_false in Hrej; rewrite Hrej.
  - reflexivity.
  - apply IH.
Qed.
End BacktrackRejected.

(** C3, what [backtrack] does: when its first trial is rejected, every
    trial is made with the same curvature estimate and is rejected too; the
    estimate is multiplied by [ratio_increase] once, after the last trial,
    and the rejected step is returned. *)
Theorem backtrack_raises_curvature_once
  (f_grad : oracle vec) (f_t : Q) (x_t d_t : vec) (g_t L_t : Q)
  (gamma_max ratio_increase ratio_decrease q : Q) (max_iter : nat) :
  (0 < max_iter)%nat ->
  fdiv g_t (dot d_t d_t * L_t) = Ok q ->
  ~ fst (f_grad (axpy x_t (pymin q gamma_max) d_t))
    <= f_t - pymin q gamma_max * g_t
       + half * (pymin q gamma_max ^ 2) * L_t * dot d_t d_t ->
  backtrack f_grad f_t x_t d_t g_t L_t gamma_max ratio_increase
    ratio_decrease max_iter
  = Ok (pymin q gamma_max, L_t * ratio_increase,
        fst (f_grad (axpy x_t (pymin q gamma_max) d_t)),
        snd (f_grad (axpy x_t (pymin q gamma_max) d_t))).
Proof.
  intros Hpos Hq Hrej. unfold backtrack.
  destruct max_iter as [|n]; [lia|].
  apply backtrack_for_rejected; assumption.
Qed.

(** On [2 * x^2] at [x = 1] with direction [-1], gap 4 and estimate 1, the
    hundred trials of [backtrack] leave the estimate at 2 and return the
    rejected step 1; doubling after each rejection would have accepted the
    third trial with estimate 4. *)
Lemma backtrack_raises_curvature_once_witness :
  exists step_size f_next grad_next,
    backtrack (quad 4 [0]) 2 [1] [- (1)] 4 1 1 2 (999 # 1000) 100
    = Ok (step_size, 1 * 2, f_next, grad_next) /\
    step_size == 1 /\ f_next == 0.
Proof.
  eexists. eexists. eexists. split.
  - apply (backtrack_raises_curvature_once (quad 4 [0]) 2 [1] [- (1)] 4 1 1
             2 (999 # 1000) (4 / (dot [- (1)] [- (1)] * 1)) 100).
    + apply Nat.ltb_lt. reflexivity.
    + reflexivity.
    + apply Qle_bool_false. vm_compute. reflexivity.
  - split; vm_compute; reflexivity.
Defined.

(** The inline search of [minimize_FW_trace], for comparison: a trial ends
    the search with the estimate kept, or decayed by 0.999 when it is the
    first, or asks for another trial with the estimate doubled. *)
Lemma fw_trace_trial_doubles_on_rejection (A : smat) (s : FW_trace.state)
  (d_t : mat) (g_t d2_t : Q) (i : nat) (L : Q) (r : trial (Q * Q * mat)) :
  FW_trace.adaptive_trial A s d_t g_t d2_t i L = Ok r ->
  (exists t, r = Next (L * 2) t) \/
  (exists t, r = Break (if Nat.eqb i 0 then L * (999 # 1000) else L) t).
Proof.
  unfold FW_trace.adaptive_trial. intro H.
  apply bind_ok in H. destruct H as (q & _ & H).
  cbv zeta in H.
  destruct (FW_trace.f_grad A
              (maxpy (FW_trace.x_t s) (pymin q 1) d_t)) as [fn gn].
  apply bind_ok in H. destruct H as (ok & _ & H).
  destruct ok; inversion H; subst; [right|left]; eexists; reflexivity.
Qed.

(** ** Shape of an iteration of the L1 active-set drivers *)

Ltac inv_bind H :=
  let a := fresh "a" in
  let E := fresh "E" in
  apply bind_ok in H; destruct H as (a & E & H); cbv beta zeta in H.

Lemma pfw_l1_body_some (f_grad : oracle vec) (alpha tol : Q) (ls : string)
  (n it : nat) (s s' : PFW_L1.state) :
  PFW_L1.body f_grad alpha tol ls n it s = Ok (Some s') ->
  exists sel step_size,
    PFW_L1.select alpha n s = Ok sel /\
    ~ PFW_L1.g_t sel <= tol /\
    PFW_L1.line_search f_grad ls n s sel (2 * alpha ^ 2)
    = Ok (PFW_L1.L_t s',
          (step_size, PFW_L1.f_t s', PFW_L1.grad s', PFW_L1.x_t s')) /\
    ~ 10 ^ 10 <= PFW_L1.L_t s' /\
    PFW_L1.update_active_set n it s sel step_size (PFW_L1.x_t s')
    = Ok (PFW_L1.active_set s', PFW_L1.weight_zero s') /\
    PFW_L1.trace s' = PFW_L1.trace s ++ [PFW_L1.x_t s'].
Proof.
  unfold PFW_L1.body. intro H. inv_bind H. rename a into sel.
  destruct (Qle_bool (PFW_L1.g_t sel) tol) eqn:Eg; [discriminate|].
  destruct (PFW_L1.idx_oracle sel =? PFW_L1.max_grad_active_idx sel)%Z;
    [discriminate|].
  inv_bind H. destruct a as [L' [[[st fn] gn] xn]].
  destruct (Qle_bool (10 ^ 10) L') eqn:EL; [discriminate|].
  inv_bind H. destruct a as [act w]. inversion H; subst; clear H. simpl.
  exists sel, st. repeat split; try assumption.
  - apply Qle_bool_false. exact Eg.
  - apply Qle_bool_false. exact EL.
Qed.

Lemma afw_l1_body_some (f_grad : oracle vec) (alpha tol : Q) (ls : string)
  (n it : nat) (s s' : AFW_L1.state) :
  AFW_L1.body f_grad alpha tol ls n it s = Ok (Some s') ->
  exists sel step_size,
    AFW_L1.select alpha n s = Ok sel /\
    ~ AFW_L1.g_t sel <= tol /\
    AFW_L1.line_search f_grad ls s sel
      (dot (AFW_L1.d_t sel) (AFW_L1.d_t sel))
    = Ok (AFW_L1.L_t s',
          (step_size, AFW_L1.f_t s', AFW_L1.grad s', AFW_L1.x_t s')) /\
    ~ 10 ^ 10 <= AFW_L1.L_t s' /\
    AFW_L1.update_active_set n s sel (AFW_L1.x_t s')
    = Ok (AFW_L1.active_set s') /\
    AFW_L1.trace s' = AFW_L1.trace s ++ [AFW_L1.x_t s'].
Proof.
  unfold AFW_L1.body. intro H. inv_bind H. rename a into sel.
  destruct (Qle_bool (AFW_L1.g_t sel) tol) eqn:Eg; [discriminate|].
  inv_bind H. destruct a as [L' [[[st fn] gn] xn]].
  destruct (Qle_bool (10 ^ 10) L') eqn:EL; [discriminate|].
  inv_bind H. inversion H; subst; clear H. simpl.
  exists sel, st. repeat split; try assumption.
  - apply Qle_bool_false. exact Eg.
  - apply Qle_bool_false. exact EL.
Qed.

(** ** C6: the ceiling on the curvature estimate *)




(** ** C7: the names of the line-search strategies *)

Lemma fw_trace_unknown_strategy (svds : mat -> res mat) (A : smat)
  (ls : string) (s : FW_trace.state) (d_t : mat) (g_t : Q) :
  ls <> "adaptive"%string -> ls <> "Lipschitz"%string ->
  ls <> "approx_ls"%string ->
  FW_trace.line_search A ls s d_t g_t = Raise ValueError.
Proof.
  intros H1 H2 H3. unfold FW_trace.line_search.
  apply String.eqb_neq in H1, H2, H3. rewrite H1, H2, H3. reflexivity.
Qed.

Lemma pfw_trace_unknown_strategy
  (approx_ls_mat : Q -> mat -> mat -> Q -> Q -> res Q) (A : smat)
  (ls : string) (s : PFW_trace.state) (sel : PFW_trace.selection) :
  ls <> "adaptive"%string -> ls <> "Lipschitz"%string ->
  ls <> "approx_ls"%string ->
  PFW_trace.line_search approx_ls_mat A ls s sel = Raise ValueError.
Proof.
  intros H1 H2 H3. unfold PFW_trace.line_search.
  apply String.eqb_neq in H1, H2, H3. rewrite H1, H2, H3. reflexivity.
Qed.

Lemma pfw_l1_unknown_strategy (f_grad : oracle vec) (ls : string) (n : nat)
  (s : PFW_L1.state) (sel : PFW_L1.selection) (d2_t : Q) :
  ls <> "adaptive"%string -> ls <> "Lipschitz"%string ->
  PFW_L1.line_search f_grad ls n s sel d2_t = Raise ValueError.
Proof.
  intros H1 H2. unfold PFW_L1.line_search.
  apply String.eqb_neq in H1, H2. rewrite H1, H2. reflexivity.
Qed.

Lemma afw_l1_unknown_strategy (f_grad : oracle vec) (ls : string)
  (s : AFW_L1.state) (sel : AFW_L1.selection) (d2_t : Q) :
  ls <> "adaptive"%string -> ls <> "Lipschitz"%string ->
  AFW_L1.line_search f_grad ls s sel d2_t = Raise ValueError.
Proof.
  intros H1 H2. unfold AFW_L1.line_search.
  apply String.eqb_neq in H1, H2. rewrite H1, H2. reflexivity.
Qed.

(** C7 (as amended).  The strategy name is read inside the loop, after the
    gap test.  [minimize_FW_trace] and [minimize_PFW_trace] raise
    [ValueError] for a name other than adaptive, Lipschitz and approx_ls;
    [minimize_PFW_L1] and [minimize_AFW_L1] for a name other than adaptive
    and Lipschitz.  The exception is raised by the first iteration, when it
    reaches the line search, before the iterate is updated: the callback
    has seen the initial point only.  A first iteration that stops on the
    gap returns the initial point whatever the name. *)
Theorem unknown_strategy_raises_at_line_search :
  (forall svds A x0 alpha L0 max_iter tol ls g,
      ls <> "adaptive"%string -> ls <> "Lipschitz"%string ->
      ls <> "approx_ls"%string ->
      n_features_of A <> 0%Z -> (0 < max_iter)%nat ->
      FW_trace.gap svds alpha (FW_trace.init A x0 L0) = Ok g ->
      (~ g <= tol ->
       FW_trace.minimize_FW_trace svds A x0 alpha L0 max_iter tol ls
       = ([x0], Raised ValueError)) /\
      (g <= tol ->
       FW_trace.minimize_FW_trace svds A x0 alpha L0 max_iter tol ls
       = ([x0], Returned x0))) /\
  (forall svds approx_ls_mat A x0 alpha L0 max_iter tol ls sel,
      ls <> "adaptive"%string -> ls <> "Lipschitz"%string ->
      ls <> "approx_ls"%string ->
      n_features_of A <> 0%Z -> (0 < max_iter)%nat ->
      PFW_trace.select svds alpha (PFW_trace.init A x0 L0) = Ok sel ->
      PFW_trace.minimize_PFW_trace svds approx_ls_mat A x0 alpha L0
        max_iter tol ls
      = ([x0], Raised ValueError)) /\
  (forall f_grad x0 alpha L0 max_iter tol ls sel,
      ls <> "adaptive"%string -> ls <> "Lipschitz"%string ->
      (0 < max_iter)%nat ->
      PFW_L1.select alpha (length x0) (PFW_L1.init f_grad (length x0) L0)
      = Ok sel ->
      (~ PFW_L1.g_t sel <= tol ->
       PFW_L1.idx_oracle sel <> PFW_L1.max_grad_active_idx sel ->
       PFW_L1.minimize_PFW_L1 f_grad x0 alpha L0 max_iter tol ls
       = ([zeros (length x0)], Raised ValueError)) /\
      (PFW_L1.g_t sel <= tol ->
       PFW_L1.minimize_PFW_L1 f_grad x0 alpha L0 max_iter tol ls
       = ([zeros (length x0)], Returned (zeros (length x0))))) /\
  (forall f_grad x0 alpha L0 max_iter tol ls sel,
      ls <> "adaptive"%string -> ls <> "Lipschitz"%string ->
      (0 < max_iter)%nat ->
      AFW_L1.select alpha (length x0) (AFW_L1.init f_grad (length x0) L0)
      = Ok sel ->
      (~ AFW_L1.g_t sel <= tol ->
       AFW_L1.minimize_AFW_L1 f_grad x0 alpha L0 max_iter tol ls
       = ([zeros (length x0)], Raised ValueError)) /\
      (AFW_L1.g_t sel <= tol ->
       AFW_L1.minimize_AFW_L1 f_grad x0 alpha L0 max_iter tol ls
       = ([zeros (length x0)], Returned (zeros (length x0))))).
Proof.
  repeat apply conj.
  - intros svds A x0 alpha L0 max_iter tol ls g H1 H2 H3 HA Hn Hg.
    unfold FW_trace.minimize_FW_trace.
    apply Z.eqb_neq in HA. rewrite HA.
    assert (Htr : FW_trace.trace (FW_trace.init A x0 L0) = [x0]
                  /\ FW_trace.x_t (FW_trace.init A x0 L0) = x0).
    { unfold FW_trace.init.
      destruct (FW_trace.f_grad A x0); split; reflexivity. }
    destruct Htr as [Htr Hx]. split; intro Hgt.
    + rewrite (for_range_raise _ max_iter 0 0 _ _ ValueError Hn eq_refl).
      * unfold finish. cbn [fst snd]. rewrite Htr. reflexivity.
      * unfold FW_trace.body. unfold FW_trace.gap in Hg.
        destruct (FW_trace.direction svds alpha (FW_trace.init A x0 L0))
          as [[d g']|e]; [|discriminate].
        cbn [bind] in *. inversion Hg; subst g'.
        apply Qle_bool_false in Hgt. rewrite Hgt.
        rewrite fw_trace_unknown_strategy by assumption. reflexivity.
    + rewrite (for_range_reach _ max_iter 0 0 _ _ (Nat.le_0_l _) eq_refl).
      * unfold finish. cbn [fst snd]. rewrite Htr, Hx. reflexivity.
      * right. apply (fw_trace_break _ _ _ _ _ _ _ g Hg Hgt).
  - intros svds approx_ls_mat A x0 alpha L0 max_iter tol ls sel
      H1 H2 H3 HA Hn Hsel.
    unfold PFW_trace.minimize_PFW_trace.
    apply Z.eqb_neq in HA. rewrite HA.
    assert (Htr : PFW_trace.trace (PFW_trace.init A x0 L0) = [x0]).
    { unfold PFW_trace.init. destruct (PFW_trace.f_grad A x0). reflexivity. }
    rewrite (for_range_raise _ max_iter 0 0 _ _ ValueError Hn eq_refl).
    + unfold finish. cbn [fst snd]. rewrite Htr. reflexivity.
    + unfold PFW_trace.body. rewrite Hsel. cbn [bind].
      rewrite pfw_trace_unknown_strategy by assumption. reflexivity.
  - intros f_grad x0 alpha L0 max_iter tol ls sel H1 H2 Hn Hsel.
    unfold PFW_L1.minimize_PFW_L1.
    assert (Htr : PFW_L1.trace (PFW_L1.init f_grad (length x0) L0)
                  = [zeros (length x0)]
                  /\ PFW_L1.x_t (PFW_L1.init f_grad (length x0) L0)
                     = zeros (length x0)).
    { unfold PFW_L1.init.
      destruct (f_grad (zeros (length x0))); split; reflexivity. }
    destruct Htr as [Htr Hx]. split.
    + intros Hgt Hidx.
      rewrite (for_range_raise _ max_iter 0 0 _ _ ValueError Hn eq_refl).
      * unfold finish. cbn [fst snd]. rewrite Htr. reflexivity.
      * unfold PFW_L1.body. rewrite Hsel. cbn [bind].
        apply Qle_bool_false in Hgt. rewrite Hgt.
        apply Z.eqb_neq in Hidx. rewrite Hidx. cbv zeta.
        rewrite pfw_l1_unknown_strategy by assumption. reflexivity.
    + intro Hgt.
      rewrite (for_range_reach _ max_iter 0 0 _ _ (Nat.le_0_l _) eq_refl).
      * unfold finish. cbn [fst snd]. rewrite Htr, Hx. reflexivity.
      * right. apply (pfw_l1_break _ _ _ _ _ _ _ (PFW_L1.g_t sel)).
        -- unfold PFW_L1.gap. rewrite Hsel. reflexivity.
        -- exact Hgt.
  - intros f_grad x0 alpha L0 max_iter tol ls sel H1 H2 Hn Hsel.
    unfold AFW_L1.minimize_AFW_L1.
    assert (Htr : AFW_L1.trace (AFW_L1.init f_grad (length x0) L0)
                  = [zeros (length x0)]
                  /\ AFW_L1.x_t (AFW_L1.init f_grad (length x0) L0)
                     = zeros (length x0)).
    { unfold AFW_L1.init.
      destruct (f_grad (zeros (length x0))); split; reflexivity. }
    destruct Htr as [Htr Hx]. split.
    + intros Hgt.
      rewrite (for_range_raise _ max_iter 0 0 _ _ ValueError Hn eq_refl).
      * unfold finish. cbn [fst snd]. rewrite Htr. reflexivity.
      * unfold AFW_L1.body. rewrite Hsel. cbn [bind].
        apply Qle_bool_false in Hgt. rewrite Hgt. cbv zeta.
        rewrite afw_l1_unknown_strategy by assumption. reflexivity.
    + intro Hgt.
      rewrite (for_range_reach _ max_iter 0 0 _ _ (Nat.le_0_l _) eq_refl).
      * unfold finish. cbn [fst snd]. rewrite Htr, Hx. reflexivity.
      * right. apply (afw_l1_break _ _ _ _ _ _ _ (AFW_L1.g_t sel)).
        -- unfold AFW_L1.gap. rewrite Hsel. reflexivity.
        -- exact Hgt.
Qed.

(** [minimize_PFW_L1] asked for a strategy named armijo: the first
    iteration finds a gap of one and raises when it reaches the search. *)
Lemma unknown_strategy_raises_at_line_search_witness :
  PFW_L1.minimize_PFW_L1 (quad 1 [1 # 2]) [0] 1 1 5 0 "armijo"
  = ([zeros (length [0])], Raised ValueError).
Proof.
  refine (proj1 (proj1 (proj2 (proj2 unknown_strategy_raises_at_line_search))
                   (quad 1 [1 # 2]) [0] 1 1 5%nat 0 "armijo"%string
                   _ _ _ _ _) _ _).
  - discriminate.
  - discriminate.
  - apply Nat.ltb_lt. reflexivity.
  - vm_compute. reflexivity.
  - apply Qle_bool_false. vm_compute. reflexivity.
  - vm_compute. discriminate.
Defined.

(** C7 fails as stated: [minimize_PFW_L1] and [minimize_AFW_L1] raise
    [ValueError] for the strategy approx_ls; and a strategy that no driver
    knows goes unnoticed when the first iteration stops on the gap. *)
Lemma l1_active_set_reject_approx_ls :
  PFW_L1.minimize_PFW_L1 (quad 1 [1 # 2]) [0] 1 1 5 0 "approx_ls"
  = ([[0]], Raised ValueError) /\
  AFW_L1.minimize_AFW_L1 (quad 1 [1 # 2]) [0] 1 1 5 0 "approx_ls"
  = ([[0]], Raised ValueError) /\
  PFW_L1.minimize_PFW_L1 (quad 1 [0]) [0] 1 1 5 0 "no_such_strategy"
  = ([[0]], Returned [0]) /\
  FW_L1.minimize_FW_L1 (quad 1 [0]) [0] 1 1 5 0 "no_such_strategy"
  = ([[0]], Returned [0]).
Proof.
  repeat split; vm_compute; reflexivity.
Qed.

(** ** C10: the initial point of the L1 active-set drivers *)

Lemma for_range_trace_grows {St V : Type}
  (body : nat -> St -> res (option St)) (trace_of : St -> list V) :
  (forall it s s', body it s = Ok (Some s') ->
                   exists l, trace_of s' = trace_of s ++ l) ->
  forall n it s,
    exists l, trace_of (fst (for_range body n it s)) = trace_of s ++ l.
Proof.
  intros Hb n. induction n as [|n IH]; intros it s.
  - exists []. simpl. rewrite app_nil_r. reflexivity.
  - simpl. destruct (body it s) as [[s'|]|e] eqn:E.
    + destruct (Hb _ _ _ E) as (l & Hl). destruct (IH (S it) s') as (l' & Hl').
      exists (l ++ l'). rewrite Hl', Hl, app_assoc. reflexivity.
    + exists []. simpl. rewrite app_nil_r. reflexivity.
    + exists []. simpl. rewrite app_nil_r. reflexivity.
Qed.

Lemma finish_fst {St V : Type} (x_of : St -> V) (trace_of : St -> list V)
  (r : St * option exn) :
  fst (finish x_of trace_of r) = trace_of (fst r).
Proof.
  unfold finish. destruct (snd r); reflexivity.
Qed.

(** C10.  [minimize_PFW_L1] and [minimize_AFW_L1] read of [x0] its length
    only: two calls that differ in [x0] alone, with initial points of the
    same length, give the callback the same iterates and end the same way;
    the first iterate is the zero vector of that length. *)
Theorem l1_active_set_drivers_ignore_x0
  (f_grad : oracle vec) (x0 x0' : vec) (alpha L0 : Q) (max_iter : nat)
  (tol : Q) (ls : string) :
  length x0 = length x0' ->
  PFW_L1.minimize_PFW_L1 f_grad x0 alpha L0 max_iter tol ls
  = PFW_L1.minimize_PFW_L1 f_grad x0' alpha L0 max_iter tol ls /\
  AFW_L1.minimize_AFW_L1 f_grad x0 alpha L0 max_iter tol ls
  = AFW_L1.minimize_AFW_L1 f_grad x0' alpha L0 max_iter tol ls /\
  (exists rest,
      fst (PFW_L1.minimize_PFW_L1 f_grad x0 alpha L0 max_iter tol ls)
      = zeros (length x0') :: rest) /\
  (exists rest,
      fst (AFW_L1.minimize_AFW_L1 f_grad x0 alpha L0 max_iter tol ls)
      = zeros (length x0') :: rest).
Proof.
  intro Hlen. unfold PFW_L1.minimize_PFW_L1, AFW_L1.minimize_AFW_L1.
  rewrite Hlen. repeat split.
  - rewrite finish_fst.
    destruct (for_range_trace_grows
                (PFW_L1.body f_grad alpha tol ls (length x0'))
                PFW_L1.trace) with (n := max_iter) (it := 0%nat)
      (s := PFW_L1.init f_grad (length x0') L0) as (l & Hl).
    + intros it s s' H. apply pfw_l1_body_some in H.
      destruct H as (sel & st & _ & _ & _ & _ & _ & Ht). eauto.
    + rewrite Hl. exists l. unfold PFW_L1.init.
      destruct (f_grad (zeros (length x0'))). reflexivity.
  - rewrite finish_fst.
    destruct (for_range_trace_grows
                (AFW_L1.body f_grad alpha tol ls (length x0'))
                AFW_L1.trace) with (n := max_iter) (it := 0%nat)
      (s := AFW_L1.init f_grad (length x0') L0) as (l & Hl).
    + intros it s s' H. apply afw_l1_body_some in H.
      destruct H as (sel & st & _ & _ & _ & _ & _ & Ht). eauto.
    + rewrite Hl. exists l. unfold AFW_L1.init.
      destruct (f_grad (zeros (length x0'))). reflexivity.
Qed.

(** Two initial points of length two: the runs coincide. *)
Lemma l1_active_set_drivers_ignore_x0_witness :
  PFW_L1.minimize_PFW_L1 (quad 1 [1 # 2; 1 # 4]) [5; 7] 1 1 3 0 "Lipschitz"
  = PFW_L1.minimize_PFW_L1 (quad 1 [1 # 2; 1 # 4]) [0; 0] 1 1 3 0
      "Lipschitz".
Proof.
  apply (l1_active_set_drivers_ignore_x0 (quad 1 [1 # 2; 1 # 4]) [5; 7]
           [0; 0] 1 1 3 0 "Lipschitz" eq_refl).
Defined.

(** ** C8: drop steps of [minimize_PFW_trace] *)

Lemma py_index_nonneg (len : nat) (i : Z) (k : nat) :
  py_index len i = Ok k -> (0 <= i)%Z -> k = Z.to_nat i /\ (k < len)%nat.
Proof.
  unfold py_index. intros H Hi.
  destruct ((0 <=? i) && (i <? Z.of_nat len))%Z eqn:E.
  - inversion H; subst. apply andb_prop in E. destruct E as [_ E].
    apply Z.ltb_lt in E. split; [reflexivity|lia].
  - destruct ((i <? 0) && (- Z.of_nat len <=? i))%Z eqn:E';
      [|discriminate].
    apply andb_prop in E'. destruct E' as [E' _].
    apply Z.ltb_lt in E'. lia.
Qed.

Lemma py_index_of_nat (len k : nat) :
  (k < len)%nat -> py_index len (Z.of_nat k) = Ok k.
Proof.
  intro H. unfold py_index.
  replace ((0 <=? Z.of_nat k) && (Z.of_nat k <? Z.of_nat len))%Z with true.
  - rewrite Nat2Z.id. reflexivity.
  - symmetry. apply andb_true_intro. split.
    + apply Z.leb_le. lia.
    + apply Z.ltb_lt. lia.
Qed.

Lemma getitem_of_nat {A : Type} (l : list A) (k : nat) (a : A) :
  nth_error l k = Some a -> getitem l (Z.of_nat k) = Ok a.
Proof.
  intro H. unfold getitem. rewrite py_index_of_nat.
  - simpl. rewrite H. reflexivity.
  - apply nth_error_Some. congruence.
Qed.


Lemma length_upd {A : Type} (l : list A) (k : nat) (a : A) :
  length (upd l k a) = length l.
Proof.
  revert k. induction l as [|b l IH]; intros k; simpl; [reflexivity|].
  destruct k; simpl; [reflexivity|]. rewrite IH. reflexivity.
Qed.



Lemma getitem_nonneg {A : Type} (l : list A) (i : Z) (a : A) :
  getitem l i = Ok a -> (0 <= i)%Z ->
  nth_error l (Z.to_nat i) = Some a.
Proof.
  unfold getitem. intros H Hi. inv_bind H.
  apply py_index_nonneg in E; [|exact Hi]. destruct E as [-> _].
  destruct (nth_error l (Z.to_nat i)); inversion H. reflexivity.
Qed.

Lemma setitem_nonneg {A : Type} (l l' : list A) (i : Z) (a : A) :
  setitem l i a = Ok l' -> (0 <= i)%Z ->
  l' = upd l (Z.to_nat i) a /\ (Z.to_nat i < length l)%nat.
Proof.
  unfold setitem. intros H Hi. inv_bind H.
  apply py_index_nonneg in E; [|exact Hi]. destruct E as [-> Hlt].
  inversion H. split; [reflexivity|exact Hlt].
Qed.





(** ** C4: accepted steps of the adaptive search *)

















(** ** C5: the gap of the L1 drivers *)

Lemma argmax_from_spec (l : vec) (best : Q) (besti i : nat) :
  (argmax_from best besti i l = besti /\ forall a, In a l -> a <= best) \/
  (exists k, argmax_from best besti i l = (i + k)%nat /\
             (k < length l)%nat /\ best <= nth k l 0 /\
             forall a, In a l -> a <= nth k l 0).
Proof.
  revert best besti i. induction l as [|a l IH]; intros best besti i.
  - left. split; [reflexivity|]. intros a [].
  - simpl. destruct (Qltb best a) eqn:E.
    + apply Qltb_true in E. right.
      destruct (IH a i (S i)) as [[Hr Hall]|(k & Hr & Hk & Hb & Hall)].
      * exists 0%nat. rewrite Hr, Nat.add_0_r. simpl.
        split; [reflexivity|]. split; [lia|]. split; [lra|].
        intros b [<-|Hb]; [lra|apply Hall; exact Hb].
      * exists (S k). rewrite Hr. simpl.
        split; [lia|]. split; [lia|]. split; [lra|].
        intros b [<-|Hb']; [exact Hb|apply Hall; exact Hb'].
    + apply Qltb_false in E.
      destruct (IH best besti (S i)) as [[Hr Hall]|(k & Hr & Hk & Hb & Hall)].
      * left. split; [exact Hr|].
        intros b [<-|Hb]; [exact E|apply Hall; exact Hb].
      * right. exists (S k). rewrite Hr. simpl.
        split; [lia|]. split; [lia|]. split; [exact Hb|].
        intros b [<-|Hb']; [lra|apply Hall; exact Hb'].
Qed.

(** [np.argmax] returns a position of the array that holds a largest
    entry. *)
Lemma argmax_spec (l : vec) (i : Z) :
  argmax l = Ok i ->
  exists k, i = Z.of_nat k /\ (k < length l)%nat /\
            forall a, In a l -> a <= nth k l 0.
Proof.
  destruct l as [|a l]; simpl; intro H; [discriminate|].
  inversion H; subst; clear H.
  destruct (argmax_from_spec l a 0 1) as [[Hr Hall]|(k & Hr & Hk & Hb & Hall)].
  - exists 0%nat. rewrite Hr. simpl. split; [reflexivity|]. split; [lia|].
    intros b [<-|Hb]; [lra|apply Hall; exact Hb].
  - exists (S k). rewrite Hr. simpl. split; [reflexivity|]. split; [lia|].
    intros b [<-|Hb']; [exact Hb|apply Hall; exact Hb'].
Qed.


Lemma getitem_nat_nth (l : vec) (k : nat) (a : Q) :
  getitem l (Z.of_nat k) = Ok a -> a = nth k l 0 /\ (k < length l)%nat.
Proof.
  intro H. apply getitem_nonneg in H; [|lia]. rewrite Nat2Z.id in H.
  split.
  - symmetry. apply nth_error_nth. exact H.
  - apply nth_error_Some. congruence.
Qed.

Lemma setitem_nat {A : Type} (l l' : list A) (k : nat) (a : A) :
  setitem l (Z.of_nat k) a = Ok l' -> l' = upd l k a /\ (k < length l)%nat.
Proof.
  intro H. apply setitem_nonneg in H; [|lia]. rewrite Nat2Z.id in H.
  exact H.
Qed.

Lemma sign_opp_mul (a : Q) : sign (- a) * a == - Qabs a.
Proof.
  unfold sign. destruct (Qltb 0 (- a)) eqn:E1.
  - apply Qltb_true in E1. rewrite Qabs_neg by lra. ring.
  - apply Qltb_false in E1. destruct (Qltb (- a) 0) eqn:E2.
    + apply Qltb_true in E2. rewrite Qabs_pos by lra. ring.
    + apply Qltb_false in E2. rewrite Qabs_pos by lra.
      assert (a == 0) by lra. lra.
Qed.




Lemma dot_comm (x y : vec) : dot x y == dot y x.
Proof.
  revert y. induction x as [|a x IH]; intros [|b y];
    try reflexivity.
  change (a * b + dot x y == b * a + dot y x). rewrite IH. ring.
Qed.

Lemma dot_vneg_l (x y : vec) : dot (vneg x) y == - dot x y.
Proof.
  revert y. induction x as [|a x IH]; intros [|b y];
    try reflexivity.
  change (- a * b + dot (vneg x) y == - (a * b + dot x y)).
  rewrite IH. ring.
Qed.

Lemma dot_upd_l (x y : vec) (k : nat) (v : Q) :
  (k < length x)%nat -> (k < length y)%nat ->
  dot (upd x k v) y == dot x y + (v - nth k x 0) * nth k y 0.
Proof.
  revert y k. induction x as [|a x IH]; intros [|b y] k Hx Hy;
    simpl in *; try lia.
  destruct k as [|k].
  - change (v * b + dot x y == a * b + dot x y + (v - a) * b). ring.
  - change (a * b + dot (upd x k v) y
            == a * b + dot x y + (v - nth k x 0) * nth k y 0).
    rewrite IH by lia. ring.
Qed.

Lemma vabs_bound (g : vec) (k : nat) :
  (forall b, In b (vabs g) -> b <= nth k (vabs g) 0) ->
  forall a, In a g -> Qabs a <= Qabs (nth k g 0).
Proof.
  intros H a Ha.
  change 0 with (Qabs 0) in H. unfold vabs in H. rewrite map_nth in H.
  apply H. apply in_map. exact Ha.
Qed.


Lemma pymod_ok (a n r : Z) :
  pymod a n = Ok r -> n <> 0%Z /\ r = (a mod n)%Z.
Proof.
  unfold pymod. destruct (n =? 0)%Z eqn:E; intro H; [discriminate|].
  inversion H. split; [apply Z.eqb_neq; exact E|reflexivity].
Qed.

(** The oracle slot [k] or [k + n] of the compact encoding names the
    coordinate [k]. *)
Lemma oracle_coordinate (n k : nat) (b : bool) (r : Z) :
  (k < n)%nat ->
  pymod (if b then (Z.of_nat k + Z.of_nat n)%Z else Z.of_nat k)
    (Z.of_nat n) = Ok r ->
  r = Z.of_nat k.
Proof.
  intros Hk H. apply pymod_ok in H. destruct H as [_ ->].
  destruct b.
  - rewrite <- (Z.mul_1_l (Z.of_nat n)) at 1.
    rewrite Z_mod_plus_full. apply Z.mod_small. lia.
  - apply Z.mod_small. lia.
Qed.








(** ** C9: radius zero *)

Lemma getitem_nth_ok (l : vec) (k : nat) :
  (k < length l)%nat -> getitem l (Z.of_nat k) = Ok (nth k l 0).
Proof.
  intro H. apply getitem_of_nat. apply nth_error_nth'. exact H.
Qed.

Lemma setitem_ok {A : Type} (l : list A) (k : nat) (a : A) :
  (k < length l)%nat -> setitem l (Z.of_nat k) a = Ok (upd l k a).
Proof.
  intro H. unfold setitem. rewrite py_index_of_nat by exact H. reflexivity.
Qed.

Lemma argmax_ok (l : vec) :
  (0 < length l)%nat ->
  exists k, argmax l = Ok (Z.of_nat k) /\ (k < length l)%nat.
Proof.
  intro H. destruct (argmax l) as [i|e] eqn:E.
  - destruct (argmax_spec l i E) as (k & -> & Hk & _). exists k.
    split; [reflexivity|exact Hk].
  - destruct l; simpl in *; [lia|discriminate].
Qed.

Lemma oracle_coordinate_ok (n k : nat) (b : bool) :
  (k < n)%nat ->
  pymod (if b then (Z.of_nat k + Z.of_nat n)%Z else Z.of_nat k)
    (Z.of_nat n) = Ok (Z.of_nat k).
Proof.
  intro Hk.
  destruct (pymod (if b then (Z.of_nat k + Z.of_nat n)%Z else Z.of_nat k)
              (Z.of_nat n)) as [r|e] eqn:E.
  - apply oracle_coordinate in E; [|exact Hk]. subst. reflexivity.
  - unfold pymod in E. destruct (Z.of_nat n =? 0)%Z eqn:E0;
      [|discriminate]. apply Z.eqb_eq in E0. lia.
Qed.

Lemma initial_active_set_false (n j : nat) :
  (j < 2 * n)%nat -> nth j (initial_active_set n) false = false.
Proof.
  intro H. unfold initial_active_set.
  rewrite app_nth1 by (rewrite repeat_length; exact H).
  apply nth_repeat.
Qed.

Lemma initial_active_set_origin (n : nat) :
  nth (2 * n) (initial_active_set n) false = true.
Proof.
  unfold initial_active_set.
  rewrite app_nth2 by (rewrite repeat_length; lia).
  rewrite repeat_length, Nat.sub_diag. reflexivity.
Qed.

Lemma fold_scan_inactive (f : option Q * Z -> nat -> option Q * Z)
  (act : list bool) (l : list nat) (acc : option Q * Z) :
  (forall acc' j, nth j act false = false -> f acc' j = acc') ->
  (forall j, In j l -> nth j act false = false) ->
  fold_left f l acc = acc.
Proof.
  intros Hf. revert acc. induction l as [|j l IH]; intros acc Hl; simpl.
  - reflexivity.
  - rewrite Hf by (apply Hl; left; reflexivity).
    apply IH. intros j' Hj'. apply Hl. right. exact Hj'.
Qed.

(** With the initial active set the away atom is the origin. *)
Lemma max_active_initial (grad : vec) (n : nat) :
  max_active grad (initial_active_set n) n true
  = (Some 0, Z.of_nat (2 * n)).
Proof.
  unfold max_active.
  rewrite (fold_scan_inactive (scan_pos grad (initial_active_set n))
             (initial_active_set n)).
  - rewrite (fold_scan_inactive (scan_neg grad (initial_active_set n) n)
               (initial_active_set n)).
    + simpl fst. rewrite initial_active_set_origin. reflexivity.
    + intros acc j Hj. unfold scan_neg. rewrite Hj. reflexivity.
    + intros j Hj. apply in_seq in Hj.
      apply initial_active_set_false. lia.
  - intros acc j Hj. unfold scan_pos. rewrite Hj. reflexivity.
  - intros j Hj. apply in_seq in Hj.
    apply initial_active_set_false. lia.
Qed.

Lemma pfw_l1_select_initial (alpha : Q) (n : nat) (s : PFW_L1.state) :
  (0 < n)%nat -> length (PFW_L1.grad s) = n ->
  PFW_L1.active_set s = initial_active_set n ->
  PFW_L1.weight_zero s = 1 ->
  exists sel a b c d,
    PFW_L1.select alpha n s = Ok sel /\
    PFW_L1.g_t sel = a * (alpha * b) - c * (alpha * d).
Proof.
  intros Hn Hlen Hact Hw. unfold PFW_L1.select.
  destruct (argmax_ok (vabs (PFW_L1.grad s))) as (k & Ek & Hk).
  { unfold vabs. rewrite length_map. lia. }
  unfold vabs in Hk. rewrite length_map, Hlen in Hk.
  rewrite Ek. cbn [bind].
  rewrite getitem_nth_ok by lia. cbn [bind]. unfold PFW_L1.nf.
  rewrite oracle_coordinate_ok by exact Hk. cbn [bind].
  rewrite getitem_nth_ok by lia. cbn [bind].
  rewrite Hact, max_active_initial.
  replace (Z.of_nat (2 * n) =? 2 * Z.of_nat n)%Z with true
    by (symmetry; apply Z.eqb_eq; lia).
  assert (Em : pymod (Z.of_nat (2 * n)) (Z.of_nat n) = Ok 0%Z).
  { unfold pymod. replace (Z.of_nat n =? 0)%Z with false
      by (symmetry; apply Z.eqb_neq; lia).
    f_equal. replace (Z.of_nat (2 * n)) with (0 + 2 * Z.of_nat n)%Z by lia.
    rewrite Z_mod_plus_full. reflexivity. }
  rewrite Em. cbn [bind]. rewrite Hw. cbn [bind assert Qltb].
  change (Qle_bool 1 0) with false. cbn [negb bind].
  rewrite (getitem_nth_ok _ 0) by lia. cbn [bind].
  eexists. eexists. eexists. eexists. eexists.
  split; reflexivity.
Qed.

Lemma dot_zeros_r (g : vec) (n : nat) : dot g (zeros n) == 0.
Proof.
  revert n. induction g as [|a g IH]; intros [|n]; try reflexivity.
  change (a * 0 + dot g (zeros n) == 0). rewrite IH. ring.
Qed.

Lemma afw_l1_gaps_initial (alpha : Q) (n : nat) (s : AFW_L1.state) :
  (0 < n)%nat -> length (AFW_L1.grad s) = n ->
  AFW_L1.active_set s = initial_active_set n ->
  exists k b so sa g_o g_a,
    (k < n)%nat /\
    AFW_L1.gaps alpha n s
    = Ok ((if b : bool then (Z.of_nat k + Z.of_nat n)%Z else Z.of_nat k),
          alpha * so, Z.of_nat (2 * n), alpha * sa,
          - (alpha * so) * g_o + dot (AFW_L1.grad s) (AFW_L1.x_t s),
          - dot (AFW_L1.grad s) (AFW_L1.x_t s) + alpha * sa * g_a).
Proof.
  intros Hn Hlen Hact. unfold AFW_L1.gaps.
  destruct (argmax_ok (vabs (AFW_L1.grad s))) as (k & Ek & Hk).
  { unfold vabs. rewrite length_map. lia. }
  unfold vabs in Hk. rewrite length_map, Hlen in Hk.
  rewrite Ek. cbn [bind].
  rewrite getitem_nth_ok by lia. cbn [bind]. unfold AFW_L1.nf.
  rewrite oracle_coordinate_ok by exact Hk. cbn [bind].
  rewrite getitem_nth_ok by lia. cbn [bind].
  rewrite Hact, max_active_initial.
  assert (Em : pymod (Z.of_nat (2 * n)) (Z.of_nat n) = Ok 0%Z).
  { unfold pymod. replace (Z.of_nat n =? 0)%Z with false
      by (symmetry; apply Z.eqb_neq; lia).
    f_equal. replace (Z.of_nat (2 * n)) with (0 + 2 * Z.of_nat n)%Z by lia.
    rewrite Z_mod_plus_full. reflexivity. }
  rewrite Em. cbn [bind].
  rewrite (getitem_nth_ok _ 0) by lia. cbn [bind].
  exists k. eexists. eexists. eexists. eexists. eexists.
  split; [exact Hk|]. reflexivity.
Qed.

Lemma afw_l1_select_zero_radius (alpha : Q) (n : nat) (s : AFW_L1.state) :
  (0 < n)%nat -> length (AFW_L1.grad s) = n ->
  AFW_L1.active_set s = initial_active_set n ->
  AFW_L1.x_t s = zeros n -> alpha == 0 ->
  exists sel, AFW_L1.select alpha n s = Ok sel /\ AFW_L1.g_t sel == 0.
Proof.
  intros Hn Hlen Hact Hx Ha.
  destruct (afw_l1_gaps_initial alpha n s Hn Hlen Hact)
    as (k & b & so & sa & g_o & g_a & Hk & Hg).
  unfold AFW_L1.select. rewrite Hg. cbn [bind]. cbv beta zeta.
  rewrite Hx.
  set (fw := - (alpha * so) * g_o + dot (AFW_L1.grad s) (zeros n)).
  set (aw := - dot (AFW_L1.grad s) (zeros n) + alpha * sa * g_a).
  assert (Hfw : fw == 0).
  { unfold fw. rewrite dot_zeros_r, Ha. ring. }
  assert (Haw : aw == 0).
  { unfold aw. rewrite dot_zeros_r, Ha. ring. }
  assert (H1 : Qle_bool 0 fw = true).
  { apply Qle_bool_iff. rewrite Hfw. apply Qle_refl. }
  assert (H2 : Qle_bool aw fw = true).
  { apply Qle_bool_iff. rewrite Hfw, Haw. apply Qle_refl. }
  rewrite H1. cbn [assert bind]. rewrite H2. unfold AFW_L1.nf.
  rewrite oracle_coordinate_ok by exact Hk. cbn [bind].
  assert (Hl : (k < length (vneg (zeros n)))%nat).
  { unfold vneg, zeros. rewrite length_map, repeat_length. exact Hk. }
  rewrite getitem_nth_ok by exact Hl. cbn [bind].
  rewrite setitem_ok by exact Hl. cbn [bind].
  eexists. split; [reflexivity|]. simpl. exact Hfw.
Qed.

Lemma fw_l1_gap_zero_radius (alpha : Q) (n : nat) (s : FW_L1.state) :
  (0 < n)%nat -> length (FW_L1.grad s) = n -> FW_L1.x_t s = zeros n ->
  alpha == 0 ->
  exists g, FW_L1.gap alpha s = Ok g /\ g == 0.
Proof.
  intros Hn Hlen Hx Ha. unfold FW_L1.gap, FW_L1.direction.
  destruct (argmax_ok (vabs (FW_L1.grad s))) as (k & Ek & Hk).
  { unfold vabs. rewrite length_map. lia. }
  unfold vabs in Hk. rewrite length_map, Hlen in Hk.
  rewrite Ek. cbn [bind].
  rewrite getitem_nth_ok by lia. cbn [bind].
  assert (Hl : (k < length (vneg (FW_L1.x_t s)))%nat).
  { rewrite Hx. unfold vneg, zeros. rewrite length_map, repeat_length.
    exact Hk. }
  rewrite getitem_nth_ok by exact Hl. cbn [bind].
  rewrite setitem_ok by exact Hl. cbn [bind].
  eexists. split; [reflexivity|].
  rewrite dot_upd_l by (try exact Hl; lia).
  rewrite dot_vneg_l, Hx, dot_comm, dot_zeros_r, Ha. ring.
Qed.

Lemma map2_Forall {A B C : Type} (f : A -> B -> C) (P : A -> Prop)
  (Q' : B -> Prop) (R : C -> Prop) (l1 : list A) (l2 : list B) :
  (forall a b, P a -> Q' b -> R (f a b)) ->
  Forall P l1 -> Forall Q' l2 -> Forall R (map2 f l1 l2).
Proof.
  intros Hf H1. revert l2. induction H1 as [|a l1 Ha H1 IH];
    intros l2 H2.
  - constructor.
  - destruct H2 as [|b l2 Hb H2]; [constructor|].
    constructor; [apply Hf; assumption|apply IH; exact H2].
Qed.

Lemma mscale_zero (alpha : Q) (m : mat) : alpha == 0 -> mzero (mscale alpha m).
Proof.
  intro Ha. unfold mzero, mscale. apply Forall_map. apply Forall_forall.
  intros r _. unfold vzero, vscale. apply Forall_map. apply Forall_forall.
  intros a _. rewrite Ha. ring.
Qed.

Lemma msub_zero (x y : mat) : mzero x -> mzero y -> mzero (msub x y).
Proof.
  apply map2_Forall. intros a b. apply map2_Forall.
  intros p q Hp Hq. rewrite Hp, Hq. ring.
Qed.

Lemma dot_vzero_r (g d : vec) : vzero d -> dot g d == 0.
Proof.
  intro Hd. revert g. induction Hd as [|a d Ha Hd IH]; intros [|b g];
    try reflexivity.
  change (b * a + dot g d == 0). rewrite IH, Ha. ring.
Qed.

Lemma msum_mmul_mzero_r (g d : mat) : mzero d -> msum (mmul g d) == 0.
Proof.
  intro Hd. revert g. induction Hd as [|r d Hr Hd IH]; intros [|q g];
    try reflexivity.
  change (dot q r + msum (mmul g d) == 0).
  rewrite IH, dot_vzero_r by exact Hr. ring.
Qed.

Lemma fw_trace_gap_zero_radius (svds : mat -> res mat) (alpha : Q)
  (s : FW_trace.state) (uvt : mat) :
  svds (mneg (FW_trace.grad s)) = Ok uvt ->
  mzero (FW_trace.x_t s) -> alpha == 0 ->
  exists g, FW_trace.gap svds alpha s = Ok g /\ g == 0.
Proof.
  intros Hs Hx Ha. unfold FW_trace.gap, FW_trace.direction.
  rewrite Hs. cbn [bind]. eexists. split; [reflexivity|].
  rewrite msum_mmul_mzero_r; [ring|].
  apply msub_zero; [apply mscale_zero; exact Ha|exact Hx].
Qed.

(** C9 (as amended).  With [alpha = 0] and a nonnegative tolerance the
    first gap is zero and no step is taken: [minimize_PFW_L1] and
    [minimize_AFW_L1] return the zero vector for every nonempty [x0];
    [minimize_FW_L1] and [minimize_FW_trace] return [x0] when [x0] is
    zero.  The gradient has the shape of the point, and the truncated SVD
    returns. *)
Theorem zero_radius_returns_origin_at_once :
  (forall f_grad x0 alpha L0 max_iter tol ls,
      alpha == 0 -> 0 <= tol -> (0 < length x0)%nat ->
      length (snd (f_grad (zeros (length x0)))) = length x0 ->
      PFW_L1.minimize_PFW_L1 f_grad x0 alpha L0 max_iter tol ls
      = ([zeros (length x0)], Returned (zeros (length x0))) /\
      AFW_L1.minimize_AFW_L1 f_grad x0 alpha L0 max_iter tol ls
      = ([zeros (length x0)], Returned (zeros (length x0)))) /\
  (forall f_grad n alpha L0 max_iter tol ls,
      alpha == 0 -> 0 <= tol -> (0 < n)%nat ->
      length (snd (f_grad (zeros n))) = n ->
      FW_L1.minimize_FW_L1 f_grad (zeros n) alpha L0 max_iter tol ls
      = ([zeros n], Returned (zeros n))) /\
  (forall svds A x0 alpha L0 max_iter tol ls uvt,
      alpha == 0 -> 0 <= tol -> n_features_of A <> 0%Z -> mzero x0 ->
      svds (mneg (snd (f_grad_trace A x0))) = Ok uvt ->
      FW_trace.minimize_FW_trace svds A x0 alpha L0 max_iter tol ls
      = ([x0], Returned x0)).
Proof.
  repeat apply conj.
  - intros f_grad x0 alpha L0 max_iter tol ls Ha Htol Hn Hlen.
    set (n := length x0) in *.
    destruct (f_grad (zeros n)) as [f0 grad0] eqn:Ef. simpl in Hlen.
    split.
    + unfold PFW_L1.minimize_PFW_L1. fold n.
      assert (Hi : PFW_L1.init f_grad n L0
                   = {| PFW_L1.x_t := zeros n; PFW_L1.f_t := f0;
                        PFW_L1.grad := grad0; PFW_L1.L_t := L0;
                        PFW_L1.active_set := initial_active_set n;
                        PFW_L1.weight_zero := 1;
                        PFW_L1.trace := [zeros n] |}).
      { unfold PFW_L1.init. rewrite Ef. reflexivity. }
      rewrite Hi.
      rewrite (for_range_reach _ max_iter 0 0 _ _ (Nat.le_0_l _) eq_refl);
        [reflexivity|].
      right.
      destruct (pfw_l1_select_initial alpha n
                  {| PFW_L1.x_t := zeros n; PFW_L1.f_t := f0;
                     PFW_L1.grad := grad0; PFW_L1.L_t := L0;
                     PFW_L1.active_set := initial_active_set n;
                     PFW_L1.weight_zero := 1;
                     PFW_L1.trace := [zeros n] |} Hn Hlen eq_refl eq_refl)
        as (sel & a & b & c & d & Hsel & Hg).
      apply (pfw_l1_break _ _ _ _ _ _ _ (PFW_L1.g_t sel)).
      * unfold PFW_L1.gap. rewrite Hsel. reflexivity.
      * rewrite Hg, Ha. lra.
    + unfold AFW_L1.minimize_AFW_L1. fold n.
      assert (Hi : AFW_L1.init f_grad n L0
                   = {| AFW_L1.x_t := zeros n; AFW_L1.f_t := f0;
                        AFW_L1.grad := grad0; AFW_L1.L_t := L0;
                        AFW_L1.active_set := initial_active_set n;
                        AFW_L1.trace := [zeros n] |}).
      { unfold AFW_L1.init. rewrite Ef. reflexivity. }
      rewrite Hi.
      rewrite (for_range_reach _ max_iter 0 0 _ _ (Nat.le_0_l _) eq_refl);
        [reflexivity|].
      right.
      destruct (afw_l1_select_zero_radius alpha n
                  {| AFW_L1.x_t := zeros n; AFW_L1.f_t := f0;
                     AFW_L1.grad := grad0; AFW_L1.L_t := L0;
                     AFW_L1.active_set := initial_active_set n;
                     AFW_L1.trace := [zeros n] |} Hn Hlen eq_refl eq_refl Ha)
        as (sel & Hsel & Hg).
      apply (afw_l1_break _ _ _ _ _ _ _ (AFW_L1.g_t sel)).
      * unfold AFW_L1.gap. rewrite Hsel. reflexivity.
      * rewrite Hg. exact Htol.
  - intros f_grad n alpha L0 max_iter tol ls Ha Htol Hn Hlen.
    destruct (f_grad (zeros n)) as [f0 grad0] eqn:Ef. simpl in Hlen.
    unfold FW_L1.minimize_FW_L1.
    assert (Hi : FW_L1.init f_grad (zeros n) L0
                 = {| FW_L1.x_t := zeros n; FW_L1.f_t := f0;
                      FW_L1.grad := grad0; FW_L1.L_t := L0;
                      FW_L1.trace := [zeros n] |}).
    { unfold FW_L1.init. rewrite Ef. reflexivity. }
    rewrite Hi.
    rewrite (for_range_reach _ max_iter 0 0 _ _ (Nat.le_0_l _) eq_refl);
      [reflexivity|].
    right.
    destruct (fw_l1_gap_zero_radius alpha n
                {| FW_L1.x_t := zeros n; FW_L1.f_t := f0;
                   FW_L1.grad := grad0; FW_L1.L_t := L0;
                   FW_L1.trace := [zeros n] |} Hn Hlen eq_refl Ha)
      as (g & Hg & Hg0).
    apply (fw_l1_break _ _ _ _ _ _ g Hg). rewrite Hg0. exact Htol.
  - intros svds A x0 alpha L0 max_iter tol ls uvt Ha Htol HA Hx Hs.
    unfold FW_trace.minimize_FW_trace.
    apply Z.eqb_neq in HA. rewrite HA.
    unfold FW_trace.init, FW_trace.f_grad.
    destruct (f_grad_trace A x0) as [f0 grad0] eqn:Ef. simpl in Hs.
    rewrite (for_range_reach _ max_iter 0 0 _ _ (Nat.le_0_l _) eq_refl);
      [reflexivity|].
    right.
    destruct (fw_trace_gap_zero_radius svds alpha
                {| FW_trace.x_t := x0; FW_trace.f_t := f0;
                   FW_trace.grad := grad0; FW_trace.L_t := L0;
                   FW_trace.trace := [x0] |} uvt Hs Hx Ha)
      as (g & Hg & Hg0).
    apply (fw_trace_break _ _ _ _ _ _ _ g Hg). rewrite Hg0. exact Htol.
Qed.

(** [minimize_PFW_L1] with radius zero, from the point [(5, 7)]. *)
Lemma zero_radius_returns_origin_at_once_witness :
  PFW_L1.minimize_PFW_L1 (quad 1 [1; 2]) [5; 7] 0 1 5 0 "adaptive"
  = ([zeros (length [5; 7])], Returned (zeros (length [5; 7]))).
Proof.
  refine (proj1 (proj1 zero_radius_returns_origin_at_once
                   (quad 1 [1; 2]) [5; 7] 0 1 5%nat 0 "adaptive"%string
                   _ _ _ _)).
  - reflexivity.
  - discriminate.
  - apply Nat.ltb_lt. reflexivity.
  - reflexivity.
Defined.

(** C9 fails as stated: with radius zero [minimize_FW_L1] returns its
    initial point 1 when the gradient vanishes there, and otherwise takes a
    step before it returns. *)
Lemma fw_l1_zero_radius_keeps_x0 :
  FW_L1.minimize_FW_L1 (quad 1 [1]) [1] 0 1 5 0 "adaptive"
  = ([[1]], Returned [1]) /\
  (exists x,
      FW_L1.minimize_FW_L1 (quad 1 [0]) [1] 0 1 5 0 "adaptive"
      = ([[1]; x], Returned x)).
Proof.
  split; [vm_compute; reflexivity|].
  eexists. vm_compute. reflexivity.
Qed.

(** ** C2: the active set of [minimize_PFW_trace] *)


Lemma length_map2 {A B C : Type} (f : A -> B -> C) (l1 : list A)
  (l2 : list B) :
  length l1 = length l2 -> length (map2 f l1 l2) = length l1.
Proof.
  intro H. unfold map2. rewrite length_map, length_combine, H.
  apply Nat.min_id.
Qed.









































(** * Further properties *)

(** ** [max_active] *)

(** A scan over the slots [l] from the running maximum [acc]: the result
    is at least the start, bounds the value of every active slot scanned,
    and is the start or the value and position of an active slot. *)
Lemma scan_spec (act : list bool) (val : nat -> Q)
  (f : option Q * Z -> nat -> option Q * Z) :
  (forall acc j,
      f acc j = if nth j act false then
                  if gt_ninf (val j) (fst acc)
                  then (Some (val j), Z.of_nat j) else acc
                else acc) ->
  forall (l : list nat) (acc : option Q * Z),
    (forall m0, fst acc = Some m0 ->
       exists m, fst (fold_left f l acc) = Some m /\ m0 <= m) /\
    (forall j, In j l -> nth j act false = true ->
       exists m, fst (fold_left f l acc) = Some m /\ val j <= m) /\
    (fold_left f l acc = acc \/
     exists j, In j l /\ nth j act false = true /\
               fold_left f l acc = (Some (val j), Z.of_nat j)).
Proof.
  intros Hf l. induction l as [|j l IH]; intros acc.
  - simpl. split; [|split].
    + intros m0 H. exists m0. split; [exact H|apply Qle_refl].
    + intros j [].
    + left. reflexivity.
  - simpl. destruct (IH (f acc j)) as (IH1 & IH2 & IH3).
    assert (Hstep : (forall m0, fst acc = Some m0 ->
                       exists m, fst (f acc j) = Some m /\ m0 <= m) /\
                    (nth j act false = true ->
                       exists m, fst (f acc j) = Some m /\ val j <= m) /\
                    (f acc j = acc \/
                     nth j act false = true /\
                     f acc j = (Some (val j), Z.of_nat j))).
    { rewrite Hf. destruct (nth j act false) eqn:Ea.
      - destruct (gt_ninf (val j) (fst acc)) eqn:Eg.
        + split; [|split].
          * intros m0 H. exists (val j). split; [reflexivity|].
            rewrite H in Eg. simpl in Eg. apply Qltb_true in Eg. lra.
          * intros _. exists (val j). split; [reflexivity|apply Qle_refl].
          * right. split; reflexivity.
        + split; [|split].
          * intros m0 H. exists m0. split; [exact H|apply Qle_refl].
          * intros _. destruct (fst acc) as [m0|] eqn:Ef;
              [|discriminate].
            simpl in Eg. apply Qltb_false in Eg. exists m0.
            split; [reflexivity|exact Eg].
          * left. reflexivity.
      - split; [|split].
        + intros m0 H. exists m0. split; [exact H|apply Qle_refl].
        + discriminate.
        + left. reflexivity. }
    destruct Hstep as (S1 & S2 & S3). split; [|split].
    + intros m0 H. destruct (S1 m0 H) as (m1 & Hm1 & Hle1).
      destruct (IH1 m1 Hm1) as (m & Hm & Hle). exists m.
      split; [exact Hm|lra].
    + intros j' [<-|Hin] Hact.
      * destruct (S2 Hact) as (m1 & Hm1 & Hle1).
        destruct (IH1 m1 Hm1) as (m & Hm & Hle). exists m.
        split; [exact Hm|lra].
      * apply IH2; assumption.
    + destruct IH3 as [E|(j' & Hin & Hact & E)].
      * rewrite E. destruct S3 as [E'|[Hact E']].
        -- left. exact E'.
        -- right. exists j. split; [left; reflexivity|].
           split; [exact Hact|exact E'].
      * right. exists j'. split; [right; exact Hin|].
        split; [exact Hact|exact E].
Qed.

(** The two scans of [max_active] together: no slot below [2 * n] is
    active and the result is the start [(-inf, -1)], or the result is an
    active slot below [2 * n] with its value, which no active slot below
    [2 * n] exceeds. *)
Lemma max_active_scans (grad : vec) (act : list bool) (n : nat) :
  let acc2 := fold_left (scan_neg grad act n) (seq n n)
                (fold_left (scan_pos grad act) (seq 0 n) (None, (- (1))%Z)) in
  (acc2 = (None, (- (1))%Z) /\
   forall j, (j < 2 * n)%nat -> nth j act false = false) \/
  (exists k, (k < 2 * n)%nat /\ nth k act false = true /\
             acc2 = (Some (slot_value grad n k), Z.of_nat k) /\
             forall j, (j < 2 * n)%nat -> nth j act false = true ->
                       slot_value grad n j <= slot_value grad n k).
Proof.
  intros acc2.
  pose proof (scan_spec act (fun j => nth j grad 0) (scan_pos grad act)
                (fun _ _ => eq_refl) (seq 0 n) (None, (- (1))%Z))
    as (P1 & P2 & P3).
  set (acc1 := fold_left (scan_pos grad act) (seq 0 n) (None, (- (1))%Z))
    in *.
  pose proof (scan_spec act (fun j => - nth (j mod n) grad 0)
                (scan_neg grad act n) (fun _ _ => eq_refl) (seq n n) acc1)
    as (N1 & N2 & N3).
  fold acc2 in N1, N2, N3.
  assert (Vpos : forall j, (j < n)%nat -> slot_value grad n j = nth j grad 0).
  { intros j Hj. unfold slot_value.
    destruct (Nat.ltb_spec j n); [reflexivity|lia]. }
  assert (Vneg : forall j, (n <= j)%nat ->
                           slot_value grad n j = - nth (j mod n) grad 0).
  { intros j Hj. unfold slot_value.
    destruct (Nat.ltb_spec j n); [lia|reflexivity]. }
  assert (Hbound : forall m, fst acc2 = Some m ->
            forall j, (j < 2 * n)%nat -> nth j act false = true ->
                      slot_value grad n j <= m).
  { intros m Hm j Hj Hact. destruct (Nat.lt_ge_cases j n) as [Hlt|Hge].
    - destruct (P2 j) as (m1 & Hm1 & Hle1);
        [apply in_seq; lia|exact Hact|].
      destruct (N1 m1 Hm1) as (m2 & Hm2 & Hle2).
      rewrite Hm in Hm2. injection Hm2 as <-. rewrite Vpos by exact Hlt. lra.
    - destruct (N2 j) as (m2 & Hm2 & Hle2);
        [apply in_seq; lia|exact Hact|].
      rewrite Hm in Hm2. injection Hm2 as <-. rewrite Vneg by exact Hge.
      exact Hle2. }
  destruct N3 as [E2|(k & Hin & Hact & E2)].
  - destruct P3 as [E1|(k & Hin & Hact & E1)].
    + left. split; [rewrite E2; exact E1|].
      intros j Hj. destruct (nth j act false) eqn:Ea; [|reflexivity].
      exfalso. destruct (Nat.lt_ge_cases j n) as [Hlt|Hge].
      * destruct (P2 j) as (m1 & Hm1 & _); [apply in_seq; lia|exact Ea|].
        rewrite E1 in Hm1. discriminate.
      * destruct (N2 j) as (m2 & Hm2 & _); [apply in_seq; lia|exact Ea|].
        rewrite E2, E1 in Hm2. discriminate.
    + right. apply in_seq in Hin. exists k.
      split; [lia|]. split; [exact Hact|].
      assert (E : acc2 = (Some (slot_value grad n k), Z.of_nat k)).
      { rewrite E2, E1, Vpos by lia. reflexivity. }
      split; [exact E|]. apply Hbound. rewrite E. reflexivity.
  - right. apply in_seq in Hin. exists k.
    split; [lia|]. split; [exact Hact|].
    assert (E : acc2 = (Some (slot_value grad n k), Z.of_nat k)).
    { rewrite E2, Vneg by lia. reflexivity. }
    split; [exact E|]. apply Hbound. rewrite E. reflexivity.
Qed.

(** X1.  [max_active] with [include_zero]: the index returned is [-1] with
    the value [-inf] exactly when no slot is active; it is the origin slot
    [2 * n] with the value zero when the origin is active and every active
    atom has a negative value; otherwise it is an active atom slot below
    [2 * n], returned with its value, which no active atom exceeds and
    which is nonnegative when the origin is active. *)
Theorem max_active_returns_largest_active_slot
  (grad : vec) (act : list bool) (n : nat) :
  (max_active grad act n true = (None, (- (1))%Z) /\
   forall j, (j <= 2 * n)%nat -> nth j act false = false) \/
  (max_active grad act n true = (Some 0, Z.of_nat (2 * n)) /\
   nth (2 * n) act false = true /\
   forall j, (j < 2 * n)%nat -> nth j act false = true ->
             slot_value grad n j < 0) \/
  (exists k, (k < 2 * n)%nat /\ nth k act false = true /\
             max_active grad act n true
             = (Some (slot_value grad n k), Z.of_nat k) /\
             (forall j, (j < 2 * n)%nat -> nth j act false = true ->
                        slot_value grad n j <= slot_value grad n k) /\
             (nth (2 * n) act false = true -> 0 <= slot_value grad n k)).
Proof.
  unfold max_active.
  destruct (max_active_scans grad act n)
    as [[E Hnone]|(k & Hk & Hact & E & Hmax)].
  - rewrite E. cbn [fst]. cbn [andb].
    destruct (nth (2 * n) act false) eqn:Eo.
    + right. left. split; [reflexivity|]. split; [reflexivity|].
      intros j Hj Hact. rewrite Hnone in Hact by exact Hj. discriminate.
    + left. split; [reflexivity|].
      intros j Hj. destruct (Nat.eq_dec j (2 * n)) as [->|Hne];
        [exact Eo|apply Hnone; lia].
  - rewrite E. cbn [fst].
    destruct (Qltb (slot_value grad n k) 0) eqn:Eneg.
    + destruct (nth (2 * n) act false) eqn:Eo; cbn [andb].
      * right. left. split; [reflexivity|]. split; [reflexivity|].
        intros j Hj Hactj. apply Qltb_true in Eneg.
        pose proof (Hmax j Hj Hactj). lra.
      * right. right. exists k. split; [exact Hk|]. split; [exact Hact|].
        split; [reflexivity|]. split; [exact Hmax|discriminate].
    + cbn [andb]. right. right. exists k. split; [exact Hk|].
      split; [exact Hact|]. split; [reflexivity|]. split; [exact Hmax|].
      intros _. apply Qltb_false in Eneg. exact Eneg.
Qed.

(** ** The bisection searches *)

Lemma midpoint_bounds (l r : Q) :
  l <= r -> l <= (l + r) / 2 /\ (l + r) / 2 <= r.
Proof.
  intros H. assert (E : (l + r) / 2 == (l + r) * (1 # 2)) by (field).
  rewrite E. split; lra.
Qed.

(** A bisection step keeps the new bracket inside the old one. *)
Lemma bisect_inside (b : bracket) (grad_c : Q) :
  lbracket b <= rbracket b ->
  let b' := bisect b ((lbracket b + rbracket b) / 2) grad_c in
  lbracket b <= lbracket b' /\ lbracket b' <= rbracket b' /\
  rbracket b' <= rbracket b.
Proof.
  intros H b'. destruct (midpoint_bounds _ _ H) as [H1 H2].
  unfold b', bisect.
  destruct (Qle_bool 0 (grad_c * grad_lbracket b)); cbn; lra.
Qed.

Lemma approx_ls_for_inside (f_grad : oracle vec) (f_t : Q) (x d : vec)
  (n : nat) :
  forall (b : bracket) (c : Q),
    lbracket b <= rbracket b ->
    approx_ls_for f_grad f_t x d n b = Ok c ->
    lbracket b <= c /\ c <= rbracket b.
Proof.
  induction n as [|n IH]; intros b c Hb H.
  - cbn in H. injection H as <-. apply midpoint_bounds. exact Hb.
  - cbn [approx_ls_for] in H. apply bind_ok in H. destruct H as (_ & _ & H).
    destruct (obj f_grad x d ((lbracket b + rbracket b) / 2))
      as [[fc grad_c] gf].
    destruct (bisect_inside b grad_c Hb) as (B1 & B2 & B3).
    cbv zeta in B1, B2, B3.
    destruct (Qltb fc f_t).
    + injection H as <-. destruct (midpoint_bounds _ _ B2). split; lra.
    + destruct (IH _ _ B2 H). split; lra.
Qed.

Lemma approx_ls_armijo_for_inside (f_grad : oracle vec) (f_t : Q)
  (x d : vec) (n : nat) :
  forall (b : bracket) (last : option Q) (c : Q),
    lbracket b <= rbracket b ->
    approx_ls_armijo_for f_grad f_t x d n b last = Ok c ->
    last = Some c \/ (lbracket b <= c /\ c <= rbracket b).
Proof.
  induction n as [|n IH]; intros b last c Hb H.
  - cbn in H. destruct last as [c0|]; [|discriminate].
    injection H as <-. left. reflexivity.
  - cbn [approx_ls_armijo_for] in H. apply bind_ok in H.
    destruct H as (_ & _ & H).
    destruct (obj f_grad x d ((lbracket b + rbracket b) / 2))
      as [[fc grad_c] gf].
    destruct (bisect_inside b grad_c Hb) as (B1 & B2 & B3).
    cbv zeta in B1, B2, B3. right.
    destruct (Qltb fc _).
    + injection H as <-. apply midpoint_bounds. exact Hb.
    + destruct (IH _ _ _ B2 H) as [E|[H1 H2]].
      * injection E as <-. apply midpoint_bounds. exact Hb.
      * split; lra.
Qed.

Lemma approx_ls_trace_for_inside (A : smat) (f_t : Q) (x d : mat)
  (n : nat) :
  forall (b : bracket) (last : option (Q * Q * Q)) (c : Q),
    lbracket b <= rbracket b ->
    FW_trace.approx_ls_trace_for A f_t x d n b last = Ok c ->
    (exists fc gg, last = Some (fc, c, gg)) \/
    (lbracket b <= c /\ c <= rbracket b).
Proof.
  induction n as [|n IH]; intros b last c Hb H.
  - cbn in H. destruct last as [[[fc c0] gg]|]; [|discriminate].
    destruct (Qltb fc _).
    + injection H as <-. left. exists fc, gg. reflexivity.
    + injection H as <-. right. apply midpoint_bounds. exact Hb.
  - cbn [FW_trace.approx_ls_trace_for] in H. apply bind_ok in H.
    destruct H as (_ & _ & H).
    destruct (FW_trace.obj A x d ((lbracket b + rbracket b) / 2))
      as [fc grad_c].
    destruct (bisect_inside b grad_c Hb) as (B1 & B2 & B3).
    cbv zeta in B1, B2, B3. right.
    destruct (Qltb fc f_t).
    + destruct (Qltb fc _).
      * injection H as <-. apply midpoint_bounds. exact Hb.
      * injection H as <-. destruct (midpoint_bounds _ _ B2). split; lra.
    + destruct (IH _ _ _ B2 H) as [(fc' & gg & E)|[H1 H2]].
      * injection E as _ <- _. apply midpoint_bounds. exact Hb.
      * split; lra.
Qed.

Lemma approx_ls_bounds (f_grad : oracle vec) (f_t : Q) (x d : vec)
  (gamma_max : Q) (max_iter : nat) (c : Q) :
  0 <= gamma_max ->
  approx_ls f_grad f_t x d gamma_max max_iter = Ok c ->
  0 <= c /\ c <= gamma_max.
Proof.
  intros Hg H.
  exact (approx_ls_for_inside f_grad f_t x d max_iter
           (init_bracket f_grad x d gamma_max) c Hg H).
Qed.

Lemma approx_ls_armijo_bounds (f_grad : oracle vec) (f_t : Q) (x d : vec)
  (gamma_max : Q) (max_iter : nat) (c : Q) :
  0 <= gamma_max ->
  approx_ls_armijo f_grad f_t x d gamma_max max_iter = Ok c ->
  0 <= c /\ c <= gamma_max.
Proof.
  intros Hg H.
  destruct (approx_ls_armijo_for_inside f_grad f_t x d max_iter
              (init_bracket f_grad x d gamma_max) None c Hg H)
    as [E|Hc]; [discriminate|exact Hc].
Qed.

Lemma approx_ls_trace_bounds (A : smat) (f_t : Q) (x d : mat)
  (gamma_max : Q) (max_iter : nat) (c : Q) :
  0 <= gamma_max ->
  FW_trace.approx_ls_trace A f_t x d gamma_max max_iter = Ok c ->
  0 <= c /\ c <= gamma_max.
Proof.
  intros Hg H. unfold FW_trace.approx_ls_trace in H.
  match type of H with
  | FW_trace.approx_ls_trace_for _ _ _ _ _ ?b _ = _ =>
      destruct (approx_ls_trace_for_inside A f_t x d max_iter b None c Hg H)
        as [(fc & gg & E)|Hc]; [discriminate|exact Hc]
  end.
Qed.

(** X2.  The three bisection searches return a step between zero and
    [gamma_max]. *)
Theorem bisection_step_within_bracket :
  (forall f_grad f_t x d gamma_max max_iter c,
      0 <= gamma_max ->
      approx_ls f_grad f_t x d gamma_max max_iter = Ok c ->
      0 <= c /\ c <= gamma_max) /\
  (forall f_grad f_t x d gamma_max max_iter c,
      0 <= gamma_max ->
      approx_ls_armijo f_grad f_t x d gamma_max max_iter = Ok c ->
      0 <= c /\ c <= gamma_max) /\
  (forall A f_t x d gamma_max max_iter c,
      0 <= gamma_max ->
      FW_trace.approx_ls_trace A f_t x d gamma_max max_iter = Ok c ->
      0 <= c /\ c <= gamma_max).
Proof.
  split; [exact approx_ls_bounds|].
  split; [exact approx_ls_armijo_bounds|exact approx_ls_trace_bounds].
Qed.

Lemma bisection_step_within_bracket_witness :
  exists c,
    approx_ls_armijo (quad 1 [1 # 2]) (1 # 8) [0] [1] 1 100 = Ok c /\
    0 <= c /\ c <= 1.
Proof.
  eexists. split; [vm_compute; reflexivity|].
  refine (proj1 (proj2 bisection_step_within_bracket)
            (quad 1 [1 # 2]) (1 # 8) [0] [1] 1 100%nat _ _ _).
  - discriminate.
  - vm_compute. reflexivity.
Defined.



Section NoZeroDerivative.
Variables (f_grad : oracle vec) (f_t : Q) (x d : vec).
Hypothesis derivative_nonzero :
  forall gamma, ~ snd (fst (obj f_grad x d gamma)) == 0.


End NoZeroDerivative.




Lemma bisection_asserts_on_equal_signs (f_grad : oracle vec) (f_t : Q)
  (x d : vec) (gamma_max : Q) (max_iter : nat) :
  (0 < max_iter)%nat ->
  0 < dot d (snd (f_grad (axpy x 0 d)))
      * dot d (snd (f_grad (axpy x gamma_max d))) ->
  approx_ls f_grad f_t x d gamma_max max_iter = Raise AssertionError /\
  approx_ls_armijo f_grad f_t x d gamma_max max_iter = Raise AssertionError.
Proof.
  intros Hn Hs.
  assert (E : Qle_bool
                (grad_lbracket (init_bracket f_grad x d gamma_max)
                 * grad_rbracket (init_bracket f_grad x d gamma_max)) 0
              = false).
  { apply Qle_bool_false. unfold init_bracket, obj.
    cbn [grad_lbracket grad_rbracket].
    destruct (f_grad (axpy x 0 d)) as [f0 g0].
    destruct (f_grad (axpy x gamma_max d)) as [f1 g1].
    cbn [fst snd] in *. lra. }
  destruct max_iter as [|n]; [lia|].
  unfold approx_ls, approx_ls_armijo.
  cbn [approx_ls_for approx_ls_armijo_for]. rewrite E. split; reflexivity.
Qed.

(** X4.  In [minimize_FW_L1] with the strategy [approx_ls], an iteration
    whose gap is above [tol] and whose direction has derivatives of the
    same strict sign at the steps zero and one (the loss still decreases at
    the full step) ends the run with an [AssertionError]. *)
Theorem fw_l1_bisection_asserts_on_equal_signs
  (f_grad : oracle vec) (x0 : vec) (alpha L0 : Q) (max_iter : nat) (tol : Q)
  (k : nat) (s : FW_L1.state) (d : vec) (g : Q) :
  (k < max_iter)%nat ->
  reach (FW_L1.body f_grad alpha tol "approx_ls") k 0
    (FW_L1.init f_grad x0 L0) s ->
  FW_L1.direction alpha s = Ok (d, g) -> ~ g <= tol ->
  0 < dot d (snd (f_grad (axpy (FW_L1.x_t s) 0 d)))
      * dot d (snd (f_grad (axpy (FW_L1.x_t s) 1 d))) ->
  FW_L1.minimize_FW_L1 f_grad x0 alpha L0 max_iter tol "approx_ls"
  = (FW_L1.trace s, Raised AssertionError).
Proof.
  intros Hk Hreach Hdir Hg Hsign. unfold FW_L1.minimize_FW_L1.
  rewrite (for_range_raise _ max_iter k 0 _ s AssertionError Hk Hreach);
    [reflexivity|].
  cbn [Nat.add]. unfold FW_L1.body. rewrite Hdir. cbn [bind].
  apply Qle_bool_false in Hg. rewrite Hg.
  unfold FW_L1.line_search.
  change ("approx_ls" =? "adaptive")%string with false.
  change ("approx_ls" =? "Lipschitz")%string with false.
  change ("approx_ls" =? "approx_ls")%string with true.
  cbv iota.
  rewrite (proj2 (bisection_asserts_on_equal_signs f_grad (FW_L1.f_t s)
                    (FW_L1.x_t s) d 1 100 ltac:(lia) Hsign)).
  reflexivity.
Qed.

Lemma fw_l1_bisection_asserts_on_equal_signs_witness :
  FW_L1.minimize_FW_L1 (quad 1 [4]) [0] 1 1 5 0 "approx_ls"
  = (FW_L1.trace (FW_L1.init (quad 1 [4]) [0] 1), Raised AssertionError).
Proof.
  refine (fw_l1_bisection_asserts_on_equal_signs (quad 1 [4]) [0] 1 1 5 0
            0 (FW_L1.init (quad 1 [4]) [0] 1) [1] 4 _ _ _ _ _).
  - lia.
  - reflexivity.
  - vm_compute. reflexivity.
  - apply Qle_bool_false. reflexivity.
  - vm_compute. reflexivity.
Defined.

(** ** [backtrack] *)

Lemma backtrack_for_first_trial (f_grad : oracle vec) (f_t : Q) (x d : vec)
  (g L gmax ri rd q : Q) (n : nat) :
  fdiv g (dot d d * L) = Ok q ->
  backtrack_for f_grad f_t x d g gmax ri rd (S n) 0 L None
  = Ok (pymin q gmax,
        (if Qle_bool (fst (f_grad (axpy x (pymin q gmax) d)))
              (f_t - pymin q gmax * g
               + half * (pymin q gmax ^ 2) * L * dot d d)
         then L * rd else L * ri),
        fst (f_grad (axpy x (pymin q gmax) d)),
        snd (f_grad (axpy x (pymin q gmax) d))).
Proof.
  intros Hq.
  destruct (Qle_bool (fst (f_grad (axpy x (pymin q gmax) d)))
              (f_t - pymin q gmax * g
               + half * (pymin q gmax ^ 2) * L * dot d d)) eqn:E.
  - rewrite backtrack_for_S, Hq. cbn [bind]. cbv zeta.
    destruct (f_grad (axpy x (pymin q gmax) d)) as [fn gn].
    cbn [fst snd] in *. rewrite E. reflexivity.
  - apply Qle_bool_false in E.
    apply (backtrack_for_rejected f_grad f_t x d g L gmax ri rd q Hq E).
Qed.


(** X5.  For every positive [max_iter], [backtrack] returns what its first
    trial found: the step [min(g_t / (d2_t * L_t), gamma_max)] with the loss
    and gradient there, and the curvature estimate times [ratio_decrease]
    when that step passes the test, times [ratio_increase] when it does
    not.  The number of trials allowed changes nothing. *)
Theorem backtrack_is_decided_by_first_trial
  (f_grad : oracle vec) (f_t : Q) (x d : vec) (g L gmax ri rd q : Q)
  (max_iter : nat) :
  (0 < max_iter)%nat ->
  fdiv g (dot d d * L) = Ok q ->
  backtrack f_grad f_t x d g L gmax ri rd max_iter
  = Ok (pymin q gmax,
        (if Qle_bool (fst (f_grad (axpy x (pymin q gmax) d)))
              (f_t - pymin q gmax * g
               + half * (pymin q gmax ^ 2) * L * dot d d)
         then L * rd else L * ri),
        fst (f_grad (axpy x (pymin q gmax) d)),
        snd (f_grad (axpy x (pymin q gmax) d))) /\
  backtrack f_grad f_t x d g L gmax ri rd max_iter
  = backtrack f_grad f_t x d g L gmax ri rd 1.
Proof.
  intros Hn Hq. destruct max_iter as [|n]; [lia|]. unfold backtrack.
  rewrite !(backtrack_for_first_trial f_grad f_t x d g L gmax ri rd q _ Hq).
  split; reflexivity.
Qed.

Lemma backtrack_is_decided_by_first_trial_witness :
  backtrack (quad 1 [1 # 2; 0]) (1 # 8) [0; 0] [1; 0] (1 # 2) 1 1 2
    (999 # 1000) 100
  = backtrack (quad 1 [1 # 2; 0]) (1 # 8) [0; 0] [1; 0] (1 # 2) 1 1 2
      (999 # 1000) 1.
Proof.
  refine (proj2 (backtrack_is_decided_by_first_trial (quad 1 [1 # 2; 0])
                   (1 # 8) [0; 0] [1; 0] (1 # 2) 1 1 2 (999 # 1000)
                   ((1 # 2) / (dot [1; 0] [1; 0] * 1)) 100 _ _)).
  - lia.
  - reflexivity.
Defined.

(** ** The inline adaptive searches *)









(** ** Loops *)


Lemma reach_invariant {St : Type} (body : nat -> St -> res (option St))
  (Inv : St -> Prop) :
  (forall it s s', Inv s -> body it s = Ok (Some s') -> Inv s') ->
  forall k it s s', Inv s -> reach body k it s s' -> Inv s'.
Proof.
  intros Hstep k. induction k as [|k IH]; intros it s s' Hs Hr.
  - cbn in Hr. subst. exact Hs.
  - destruct Hr as (s1 & E & Hr). apply (IH _ _ _ (Hstep _ _ _ Hs E) Hr).
Qed.







(** ** [minimize_FW_L1] keeps its iterates in the ball *)






(** ** [minimize_FW_L1] stays in the ball *)




Lemma setitem_length {A : Type} (l l' : list A) (i : Z) (a : A) :
  setitem l i a = Ok l' -> length l' = length l.
Proof.
  unfold setitem. intros H. inv_bind H. injection H as <-.
  apply length_upd.
Qed.



Lemma length_axpy (x d : vec) (gamma : Q) :
  length d = length x -> length (axpy x gamma d) = length x.
Proof.
  intros H. unfold axpy, vadd, vscale. apply length_map2.
  rewrite length_map. symmetry. exact H.
Qed.

Lemma pfw_l1_move_length (n : nat) (s : PFW_L1.state)
  (sel : PFW_L1.selection) (st : Q) (x' : vec) :
  PFW_L1.move n s sel st = Ok x' -> length x' = length (PFW_L1.x_t s).
Proof.
  unfold PFW_L1.move. intros H. inv_bind H. inv_bind H. inv_bind H.
  apply setitem_length in E1.
  destruct (PFW_L1.is_away_zero sel).
  - injection H as <-. exact E1.
  - inv_bind H. inv_bind H. apply setitem_length in H.
    transitivity (length a1); assumption.
Qed.









Lemma quad_shaped (c : Q) (b : vec) : oracle_shaped (length b) (quad c b).
Proof.
  intros x Hx. unfold quad. cbn [snd]. unfold vscale, vsub.
  rewrite length_map. rewrite length_map2; assumption.
Qed.


(** ** The selection of [minimize_PFW_trace] *)

Lemma away_atom_least (g x : mat) (atoms : list mat) :
  forall (i : nat) (v : mat) (vt_loss : option Q) (idx : Z) (v' : mat)
         (idx' : Z),
    PFW_trace.away_atom g x atoms i v vt_loss idx = (v', idx') ->
    (v' = v /\ idx' = idx /\
     forall a, In a atoms ->
               exists m, vt_loss = Some m /\ m < away_loss g x a) \/
    (exists k, idx' = Z.of_nat (i + k) /\ nth_error atoms k = Some v' /\
               (forall a, In a atoms ->
                          away_loss g x v' <= away_loss g x a) /\
               (forall m, vt_loss = Some m -> away_loss g x v' <= m) /\
               (forall k' a, (k < k')%nat -> nth_error atoms k' = Some a ->
                             away_loss g x v' < away_loss g x a)).
Proof.
  induction atoms as [|a rest IH]; intros i v vt_loss idx v' idx' H;
    cbn [PFW_trace.away_atom] in H.
  - injection H as <- <-. left. split; [reflexivity|].
    split; [reflexivity|]. intros a [].
  - fold (away_loss g x a) in H.
    destruct (le_inf (away_loss g x a) vt_loss) eqn:El.
    + assert (Hm : forall m, vt_loss = Some m -> away_loss g x a <= m).
      { intros m ->. cbn in El. apply Qle_bool_iff. exact El. }
      apply IH in H. right.
      destruct H as [(-> & -> & Hrest)|(k & -> & Hk & Hmin & Hle & Hlater)].
      * exists O. rewrite Nat.add_0_r. split; [reflexivity|].
        split; [reflexivity|]. split; [|split].
        -- intros b [<-|Hb]; [apply Qle_refl|].
           destruct (Hrest b Hb) as (m & Em & Hlt). injection Em as <-. lra.
        -- exact Hm.
        -- intros k' b Hk' Hb. destruct k' as [|k']; [lia|]. cbn in Hb.
           apply nth_error_In in Hb. destruct (Hrest b Hb) as (m & Em & Hlt).
           injection Em as <-. exact Hlt.
      * exists (S k). split; [f_equal; lia|]. split; [exact Hk|].
        pose proof (Hle _ eq_refl) as Hva. split; [|split].
        -- intros b [<-|Hb]; [exact Hva|apply Hmin; exact Hb].
        -- intros m Em. pose proof (Hm m Em). lra.
        -- intros k' b Hk' Hb. destruct k' as [|k']; [lia|]. cbn in Hb.
           apply (Hlater k' b); [lia|exact Hb].
    + destruct vt_loss as [m|]; [|discriminate]. cbn in El.
      apply Qle_bool_false in El.
      assert (Hlt : m < away_loss g x a).
      { destruct (Qlt_le_dec m (away_loss g x a)); [assumption|].
        contradiction. }
      apply IH in H.
      destruct H as [(-> & -> & Hrest)|(k & -> & Hk & Hmin & Hle & Hlater)].
      * left. split; [reflexivity|]. split; [reflexivity|].
        intros b [<-|Hb]; [exists m; split; [reflexivity|exact Hlt]|].
        apply Hrest. exact Hb.
      * right. exists (S k). split; [f_equal; lia|]. split; [exact Hk|].
        pose proof (Hle _ eq_refl) as Hvm. split; [|split].
        -- intros b [<-|Hb]; [lra|apply Hmin; exact Hb].
        -- exact Hle.
        -- intros k' b Hk' Hb. destruct k' as [|k']; [lia|]. cbn in Hb.
           apply (Hlater k' b); [lia|exact Hb].
Qed.

(** X10.  The away atom of [minimize_PFW_trace] is the active atom of
    least [grad.multiply(x_t - atom).sum()], that is of largest inner
    product with the gradient, and the last such atom of the list. *)
Theorem pfw_trace_away_atom_is_least (svds : mat -> res mat) (alpha : Q)
  (s : PFW_trace.state) (sel : PFW_trace.selection) :
  PFW_trace.select svds alpha s = Ok sel ->
  exists k,
    PFW_trace.vt_idx sel = Z.of_nat k /\
    nth_error (PFW_trace.active_set s) k = Some (PFW_trace.v_t sel) /\
    (forall a, In a (PFW_trace.active_set s) ->
               away_loss (PFW_trace.grad s) (PFW_trace.x_t s)
                 (PFW_trace.v_t sel)
               <= away_loss (PFW_trace.grad s) (PFW_trace.x_t s) a) /\
    (forall k' a, (k < k')%nat ->
                  nth_error (PFW_trace.active_set s) k' = Some a ->
                  away_loss (PFW_trace.grad s) (PFW_trace.x_t s)
                    (PFW_trace.v_t sel)
                  < away_loss (PFW_trace.grad s) (PFW_trace.x_t s) a).
Proof.
  intros H. unfold PFW_trace.select in H.
  inv_bind H. inv_bind H. destruct a0 as [min_vt_st idx_min].
  inv_bind H. inv_bind H.
  destruct (PFW_trace.away_atom (PFW_trace.grad s) (PFW_trace.x_t s)
              (PFW_trace.active_set s) 0 a1 None (- (1))%Z)
    as [v idx] eqn:Ea.
  destruct (idx <? 0)%Z eqn:Ei; [discriminate|].
  inv_bind H. injection H as <-. cbn [PFW_trace.vt_idx PFW_trace.v_t].
  apply away_atom_least in Ea.
  destruct Ea as [(_ & -> & _)|(k & -> & Hk & Hmin & _ & Hlater)];
    [discriminate|].
  exists k. split; [reflexivity|]. split; [exact Hk|].
  split; [exact Hmin|exact Hlater].
Qed.

Lemma pfw_trace_away_atom_is_least_witness :
  exists sel k,
    PFW_trace.select svds_corner 1 pfw_trace_init_state = Ok sel /\
    PFW_trace.vt_idx sel = Z.of_nat k /\
    nth_error (PFW_trace.active_set pfw_trace_init_state) k
    = Some (PFW_trace.v_t sel).
Proof.
  eexists.
  assert (H : PFW_trace.select svds_corner 1 pfw_trace_init_state = Ok _)
    by (vm_compute; reflexivity).
  destruct (pfw_trace_away_atom_is_least svds_corner 1 pfw_trace_init_state
              _ H) as (k & Hk & Hn & _).
  exists k. split; [exact H|]. split; [exact Hk|exact Hn].
Defined.

Lemma nearest_atom_least (s : mat) (atoms : list mat) :
  forall (i : nat) (min_vt_st : option Q) (idx : Z) (min' : option Q)
         (idx' : Z),
    PFW_trace.nearest_atom s atoms i min_vt_st idx = Ok (min', idx') ->
    (min' = min_vt_st /\ idx' = idx /\
     forall a, In a atoms ->
               exists m da, min_vt_st = Some m /\
                            atom_distance s a = Ok da /\ m <= da) \/
    (exists k a m',
        idx' = Z.of_nat (i + k) /\ nth_error atoms k = Some a /\
        atom_distance s a = Ok m' /\ min' = Some m' /\
        (forall b, In b atoms ->
                   exists db, atom_distance s b = Ok db /\ m' <= db) /\
        (forall m, min_vt_st = Some m -> m' < m) /\
        (forall k' b, (k' < k)%nat -> nth_error atoms k' = Some b ->
                      exists db, atom_distance s b = Ok db /\ m' < db)).
Proof.
  induction atoms as [|a rest IH]; intros i min_vt_st idx min' idx' H;
    cbn [PFW_trace.nearest_atom] in H.
  - injection H as <- <-. left. split; [reflexivity|].
    split; [reflexivity|]. intros a [].
  - fold (atom_distance s a) in H. inv_bind H. rename a0 into da.
    destruct (lt_inf da min_vt_st) eqn:El.
    + assert (Hm : forall m, min_vt_st = Some m -> da < m).
      { intros m ->. cbn in El. apply Qltb_true. exact El. }
      apply IH in H. right.
      destruct H as [(-> & -> & Hrest)
                    |(k & a' & m' & -> & Hk & Hd & -> & Hmin & Hlt & Hear)].
      * exists O, a, da. rewrite Nat.add_0_r. split; [reflexivity|].
        split; [reflexivity|]. split; [exact E|]. split; [reflexivity|].
        split; [|split].
        -- intros b [<-|Hb]; [exists da; split; [exact E|apply Qle_refl]|].
           destruct (Hrest b Hb) as (m & db & Em & Edb & Hle).
           injection Em as <-. exists db. split; [exact Edb|exact Hle].
        -- exact Hm.
        -- intros k' b Hk'. lia.
      * exists (S k), a', m'. split; [f_equal; lia|]. split; [exact Hk|].
        split; [exact Hd|]. split; [reflexivity|].
        pose proof (Hlt _ eq_refl) as Hmd. split; [|split].
        -- intros b [<-|Hb]; [exists da; split; [exact E|lra]|].
           apply Hmin. exact Hb.
        -- intros m Em. pose proof (Hm m Em). lra.
        -- intros k' b Hk' Hb. destruct k' as [|k'].
           ++ cbn in Hb. injection Hb as <-. exists da.
              split; [exact E|exact Hmd].
           ++ cbn in Hb. apply (Hear k' b); [lia|exact Hb].
    + destruct min_vt_st as [m|]; [|discriminate]. cbn in El.
      apply Qltb_false in El. apply IH in H.
      destruct H as [(-> & -> & Hrest)
                    |(k & a' & m' & -> & Hk & Hd & -> & Hmin & Hlt & Hear)].
      * left. split; [reflexivity|]. split; [reflexivity|].
        intros b [<-|Hb].
        -- exists m, da. split; [reflexivity|]. split; [exact E|exact El].
        -- apply Hrest. exact Hb.
      * right. exists (S k), a', m'. split; [f_equal; lia|].
        split; [exact Hk|]. split; [exact Hd|]. split; [reflexivity|].
        pose proof (Hlt _ eq_refl) as Hmm. split; [|split].
        -- intros b [<-|Hb]; [exists da; split; [exact E|lra]|].
           apply Hmin. exact Hb.
        -- exact Hlt.
        -- intros k' b Hk' Hb. destruct k' as [|k'].
           ++ cbn in Hb. injection Hb as <-. exists da.
              split; [exact E|lra].
           ++ cbn in Hb. apply (Hear k' b); [lia|exact Hb].
Qed.

(** X11.  The toward atom of [minimize_PFW_trace].  The oracle vertex
    [alpha * u.dot(vt)] is replaced by an active atom exactly when the
    nearest active atom is closer than [1e-4] in the largest squared entry
    of the difference, and then by that nearest atom, the first of the list
    when several are nearest; otherwise the vertex itself is the toward
    atom and every active atom is at least [1e-4] away. *)
Theorem pfw_trace_toward_atom_is_nearest (svds : mat -> res mat) (alpha : Q)
  (s : PFW_trace.state) (sel : PFW_trace.selection) (uvt : mat) :
  svds (mneg (PFW_trace.grad s)) = Ok uvt ->
  PFW_trace.select svds alpha s = Ok sel ->
  (PFW_trace.atom_in_activeset sel = true ->
   exists k m,
     PFW_trace.idx_min_vt_st sel = Z.of_nat k /\
     nth_error (PFW_trace.active_set s) k = Some (PFW_trace.s_t sel) /\
     atom_distance (mscale alpha uvt) (PFW_trace.s_t sel) = Ok m /\
     m < 1 # 10000 /\
     (forall b, In b (PFW_trace.active_set s) ->
                exists db, atom_distance (mscale alpha uvt) b = Ok db /\
                           m <= db) /\
     (forall k' b, (k' < k)%nat ->
                   nth_error (PFW_trace.active_set s) k' = Some b ->
                   exists db, atom_distance (mscale alpha uvt) b = Ok db /\
                              m < db)) /\
  (PFW_trace.atom_in_activeset sel = false ->
   PFW_trace.s_t sel = mscale alpha uvt /\
   forall b, In b (PFW_trace.active_set s) ->
             exists db, atom_distance (mscale alpha uvt) b = Ok db /\
                        1 # 10000 <= db).
Proof.
  intros Hsvds H. unfold PFW_trace.select in H. rewrite Hsvds in H.
  cbn [bind] in H. inv_bind H. destruct a as [min_vt_st idx_min].
  inv_bind H. inv_bind H.
  destruct (PFW_trace.away_atom (PFW_trace.grad s) (PFW_trace.x_t s)
              (PFW_trace.active_set s) 0 a0 None (- (1))%Z) as [v idx].
  destruct (idx <? 0)%Z; [discriminate|].
  inv_bind H. injection H as <-.
  cbn [PFW_trace.atom_in_activeset PFW_trace.idx_min_vt_st PFW_trace.s_t].
  apply nearest_atom_least in E.
  destruct E as [(-> & -> & Hrest)
                |(k & a' & m' & -> & Hk & Hd & -> & Hmin & _ & Hear)].
  - cbn in E0. injection E0 as <-. split; [discriminate|]. intros _.
    split; [reflexivity|]. intros b Hb.
    destruct (Hrest b Hb) as (m & db & Em & _). discriminate.
  - destruct (Qltb m' (1 # 10000)) eqn:Em.
    + split; [|discriminate]. intros _. cbn [Nat.add] in E0.
      apply getitem_nonneg in E0; [|lia]. rewrite Nat2Z.id in E0.
      rewrite Hk in E0. injection E0 as <-.
      exists k, m'. split; [reflexivity|]. split; [exact Hk|].
      split; [exact Hd|]. split; [apply Qltb_true; exact Em|].
      split; [exact Hmin|exact Hear].
    + split; [discriminate|]. intros _. injection E0 as <-.
      split; [reflexivity|]. intros b Hb.
      destruct (Hmin b Hb) as (db & Edb & Hle). exists db.
      split; [exact Edb|]. apply Qltb_false in Em. lra.
Qed.

Lemma pfw_trace_toward_atom_is_nearest_witness :
  exists sel,
    PFW_trace.select svds_corner 1 pfw_trace_init_state = Ok sel /\
    PFW_trace.atom_in_activeset sel = false /\
    PFW_trace.s_t sel = mscale 1 [[1; 0]; [0; 0]].
Proof.
  eexists.
  assert (H : PFW_trace.select svds_corner 1 pfw_trace_init_state = Ok _)
    by (vm_compute; reflexivity).
  split; [exact H|]. split; [reflexivity|].
  refine (proj1 (proj2 (pfw_trace_toward_atom_is_nearest svds_corner 1
                          pfw_trace_init_state _ [[1; 0]; [0; 0]] _ H) _)).
  - vm_compute. reflexivity.
  - reflexivity.
Defined.

(** ** The step of [minimize_PFW_L1] *)

Lemma nth_upd_same {A : Type} (l : list A) (k : nat) (a d : A) :
  (k < length l)%nat -> nth k (upd l k a) d = a.
Proof.
  revert k. induction l as [|b l IH]; intros k Hk; [cbn in Hk; lia|].
  destruct k as [|k]; [reflexivity|]. cbn in *. apply IH. lia.
Qed.

Lemma nth_upd_other {A : Type} (l : list A) (k k' : nat) (a d : A) :
  k <> k' -> nth k (upd l k' a) d = nth k l d.
Proof.
  revert k k'. induction l as [|b l IH]; intros k k' Hk;
    [destruct k, k'; reflexivity|].
  destruct k as [|k], k' as [|k']; try reflexivity; [lia|].
  cbn. apply IH. lia.
Qed.

(** A coordinate [idx % n_features] read and written by the driver. *)
Lemma coordinate_in_range (n : nat) (idx r : Z) (x : vec) (a : Q) :
  pymod idx (Z.of_nat n) = Ok r -> getitem x r = Ok a ->
  exists k, r = Z.of_nat k /\ (k < length x)%nat /\ a = nth k x 0.
Proof.
  intros Hm Hg. apply pymod_ok in Hm. destruct Hm as [Hn ->].
  assert (H0 : (0 <= idx mod Z.of_nat n)%Z).
  { apply Z.mod_pos_bound. lia. }
  exists (Z.to_nat (idx mod Z.of_nat n)).
  rewrite Z2Nat.id by exact H0. split; [reflexivity|].
  rewrite <- (Z2Nat.id _ H0) in Hg. apply getitem_nat_nth in Hg.
  destruct Hg as [-> Hk]. split; [exact Hk|reflexivity].
Qed.

(** X12.  A step of [minimize_PFW_L1] writes at most two entries of the
    iterate.  The away coordinate always ends as its old value minus
    [step_size * mag_away]; the oracle coordinate ends as its old value
    plus [step_size * mag_oracle] unless it is also the away coordinate,
    where the second write, computed from the old iterate, replaces the
    first. *)
Theorem pfw_l1_step_writes_two_coordinates (n : nat) (s : PFW_L1.state)
  (sel : PFW_L1.selection) (step_size : Q) (x' : vec) :
  PFW_L1.move n s sel step_size = Ok x' ->
  exists io,
    pymod (PFW_L1.idx_oracle sel) (Z.of_nat n) = Ok (Z.of_nat io) /\
    (io < length (PFW_L1.x_t s))%nat /\
    length x' = length (PFW_L1.x_t s) /\
    (PFW_L1.is_away_zero sel = true ->
     x' = upd (PFW_L1.x_t s) io
            (nth io (PFW_L1.x_t s) 0 + step_size * PFW_L1.mag_oracle sel)) /\
    (PFW_L1.is_away_zero sel = false ->
     exists ia,
       pymod (PFW_L1.max_grad_active_idx sel) (Z.of_nat n)
       = Ok (Z.of_nat ia) /\
       (ia < length (PFW_L1.x_t s))%nat /\
       nth ia x' 0
       = nth ia (PFW_L1.x_t s) 0 - step_size * PFW_L1.mag_away sel /\
       (ia <> io ->
        nth io x' 0
        = nth io (PFW_L1.x_t s) 0 + step_size * PFW_L1.mag_oracle sel) /\
       (forall j, j <> io -> j <> ia ->
                  nth j x' 0 = nth j (PFW_L1.x_t s) 0)).
Proof.
  intros H. pose proof (pfw_l1_move_length n s sel step_size x' H) as Hlen.
  unfold PFW_L1.move, PFW_L1.nf in H. inv_bind H. inv_bind H.
  destruct (coordinate_in_range n _ _ _ _ E E0) as (io & -> & Hio & ->).
  inv_bind H. apply setitem_nat in E1. destruct E1 as [-> _].
  exists io. split; [exact E|]. split; [exact Hio|]. split; [exact Hlen|].
  destruct (PFW_L1.is_away_zero sel).
  - split; [|discriminate]. intros _. injection H as <-. reflexivity.
  - split; [discriminate|]. intros _. inv_bind H. inv_bind H.
    destruct (coordinate_in_range n _ _ _ _ E1 E2) as (ia & -> & Hia & ->).
    apply setitem_nat in H. destruct H as [-> _].
    exists ia. split; [exact E1|]. split; [exact Hia|]. split; [|split].
    + apply nth_upd_same. rewrite length_upd. exact Hia.
    + intros Hne. rewrite nth_upd_other by (intro; apply Hne; congruence).
      apply nth_upd_same. exact Hio.
    + intros j Hjo Hja. rewrite !nth_upd_other by assumption. reflexivity.
Qed.

Lemma pfw_l1_step_writes_two_coordinates_witness :
  exists x' io,
    PFW_L1.move 1 (PFW_L1.init (quad 1 [1 # 2]) 1 1)
      {| PFW_L1.idx_oracle := 0; PFW_L1.mag_oracle := 1;
         PFW_L1.max_grad_active_idx := 2; PFW_L1.mag_away := - (1);
         PFW_L1.is_away_zero := true; PFW_L1.gamma_max := 1;
         PFW_L1.g_t := 1 |} (1 # 2) = Ok x' /\
    pymod 0 (Z.of_nat 1) = Ok (Z.of_nat io) /\
    length x' = 1%nat.
Proof.
  eexists.
  assert (H : PFW_L1.move 1 (PFW_L1.init (quad 1 [1 # 2]) 1 1)
                {| PFW_L1.idx_oracle := 0; PFW_L1.mag_oracle := 1;
                   PFW_L1.max_grad_active_idx := 2;
                   PFW_L1.mag_away := - (1);
                   PFW_L1.is_away_zero := true; PFW_L1.gamma_max := 1;
                   PFW_L1.g_t := 1 |} (1 # 2) = Ok _)
    by (vm_compute; reflexivity).
  destruct (pfw_l1_step_writes_two_coordinates _ _ _ _ _ H)
    as (io & Hio & _ & Hlen & _).
  exists io. split; [exact H|]. split; [exact Hio|exact Hlen].
Defined.

(** ** The first gap of [minimize_PFW_L1] *)

Lemma sign_Z_neg (z : Z) : (z < 0)%Z -> sign_Z z = - (1).
Proof.
  intros Hz. unfold sign_Z, sign.
  assert (Hq : inject_Z z < 0).
  { unfold Qlt, inject_Z. cbn [Qnum Qden]. lia. }
  replace (Qltb 0 (inject_Z z)) with false
    by (symmetry; apply Qltb_false; lra).
  replace (Qltb (inject_Z z) 0) with true
    by (symmetry; apply Qltb_true; exact Hq).
  reflexivity.
Qed.

(** The selection at a state whose active set is the initial one: the
    away atom is the origin, found at the slot [2 * n], whose coordinate
    [2 * n % n] is the first one. *)
Lemma pfw_l1_select_at_origin (alpha : Q) (n : nat) (s : PFW_L1.state) :
  (0 < n)%nat -> length (PFW_L1.grad s) = n ->
  PFW_L1.active_set s = initial_active_set n ->
  PFW_L1.weight_zero s = 1 ->
  exists k sel,
    (k < n)%nat /\
    (forall a, In a (PFW_L1.grad s) ->
               Qabs a <= Qabs (nth k (PFW_L1.grad s) 0)) /\
    PFW_L1.select alpha n s = Ok sel /\
    PFW_L1.is_away_zero sel = true /\
    PFW_L1.g_t sel
    == alpha * (Qabs (nth k (PFW_L1.grad s) 0) - nth 0 (PFW_L1.grad s) 0).
Proof.
  intros Hn Hlen Hact Hw. unfold PFW_L1.select.
  destruct (argmax_ok (vabs (PFW_L1.grad s))) as (k & Ek & Hk).
  { unfold vabs. rewrite length_map. lia. }
  pose proof (argmax_spec _ _ Ek) as (k' & Ekk & _ & Hmax).
  apply Nat2Z.inj in Ekk. subst k'.
  unfold vabs in Hk. rewrite length_map, Hlen in Hk.
  rewrite Ek. cbn [bind].
  rewrite getitem_nth_ok by lia. cbn [bind]. unfold PFW_L1.nf.
  rewrite oracle_coordinate_ok by exact Hk. cbn [bind].
  rewrite getitem_nth_ok by lia. cbn [bind].
  rewrite Hact, max_active_initial.
  replace (Z.of_nat (2 * n) =? 2 * Z.of_nat n)%Z with true
    by (symmetry; apply Z.eqb_eq; lia).
  assert (Em : pymod (Z.of_nat (2 * n)) (Z.of_nat n) = Ok 0%Z).
  { unfold pymod. replace (Z.of_nat n =? 0)%Z with false
      by (symmetry; apply Z.eqb_neq; lia).
    f_equal. replace (Z.of_nat (2 * n)) with (0 + 2 * Z.of_nat n)%Z by lia.
    rewrite Z_mod_plus_full. reflexivity. }
  rewrite Em. cbn [bind]. rewrite Hw. cbn [bind assert Qltb].
  change (Qle_bool 1 0) with false. cbn [negb bind].
  rewrite (getitem_nth_ok _ 0) by lia. cbn [bind].
  rewrite sign_Z_neg by lia.
  exists k. eexists. split; [exact Hk|].
  split; [apply vabs_bound; exact Hmax|].
  split; [reflexivity|]. split; [reflexivity|].
  cbn [PFW_L1.g_t].
  pose proof (sign_opp_mul (nth k (PFW_L1.grad s) 0)) as Hs.
  set (gk := nth k (PFW_L1.grad s) 0) in *.
  set (g0 := nth 0 (PFW_L1.grad s) 0).
  set (sg := sign (- gk)) in *.
  assert (E : g0 * (alpha * - (1)) - gk * (alpha * sg)
              == - (alpha * g0) - alpha * (sg * gk)) by ring.
  rewrite E, Hs. ring.
Qed.

(** X13.  The first gap of [minimize_PFW_L1].  At the first iteration the
    away atom is the origin, and the gap the driver computes for it is
    [alpha * (max |grad| - grad[0])]: the origin sits at the slot
    [2 * n_features], whose coordinate [2 * n_features % n_features] is
    zero.  So when the first entry of the gradient at the origin is its
    largest in magnitude and is not negative, the gap is zero and the
    driver returns the origin without a step, for any [tol >= 0]. *)
Theorem pfw_l1_first_gap_reads_first_coordinate
  (f_grad : oracle vec) (x0 : vec) (alpha L0 : Q) (max_iter : nat) (tol : Q)
  (ls : string) :
  (0 < length x0)%nat ->
  length (snd (f_grad (zeros (length x0)))) = length x0 ->
  (exists k g,
      (k < length x0)%nat /\
      (forall a, In a (snd (f_grad (zeros (length x0)))) ->
                 Qabs a <= Qabs (nth k (snd (f_grad (zeros (length x0)))) 0))
      /\
      PFW_L1.gap alpha (length x0) (PFW_L1.init f_grad (length x0) L0)
      = Ok g /\
      g == alpha * (Qabs (nth k (snd (f_grad (zeros (length x0)))) 0)
                    - nth 0 (snd (f_grad (zeros (length x0)))) 0)) /\
  (0 <= tol ->
   (forall a, In a (snd (f_grad (zeros (length x0)))) ->
              Qabs a <= nth 0 (snd (f_grad (zeros (length x0)))) 0) ->
   PFW_L1.minimize_PFW_L1 f_grad x0 alpha L0 max_iter tol ls
   = ([zeros (length x0)], Returned (zeros (length x0)))).
Proof.
  intros Hn Hlen.
  assert (Hinit : exists f0,
             PFW_L1.init f_grad (length x0) L0
             = {| PFW_L1.x_t := zeros (length x0); PFW_L1.f_t := f0;
                  PFW_L1.grad := snd (f_grad (zeros (length x0)));
                  PFW_L1.L_t := L0;
                  PFW_L1.active_set := initial_active_set (length x0);
                  PFW_L1.weight_zero := 1;
                  PFW_L1.trace := [zeros (length x0)] |}).
  { unfold PFW_L1.init. destruct (f_grad (zeros (length x0))) as [f0 g0].
    exists f0. reflexivity. }
  destruct Hinit as (f0 & Hinit).
  destruct (pfw_l1_select_at_origin alpha (length x0)
              (PFW_L1.init f_grad (length x0) L0) Hn)
    as (k & sel & Hk & Hmax & Hsel & _ & Hg);
    try (rewrite Hinit; cbn; first [exact Hlen|reflexivity]).
  rewrite Hinit in Hmax, Hg. cbn [PFW_L1.grad] in Hmax, Hg.
  split.
  - exists k, (PFW_L1.g_t sel). split; [exact Hk|]. split; [exact Hmax|].
    split; [|exact Hg]. unfold PFW_L1.gap. rewrite Hsel. reflexivity.
  - intros Htol Hfirst. unfold PFW_L1.minimize_PFW_L1. cbv zeta.
    rewrite (for_range_reach _ max_iter 0 0 _
               (PFW_L1.init f_grad (length x0) L0)).
    + rewrite Hinit. reflexivity.
    + lia.
    + reflexivity.
    + right. cbn [Nat.add].
      apply (pfw_l1_break f_grad alpha tol ls (length x0) 0 _
               (PFW_L1.g_t sel)).
      * unfold PFW_L1.gap. rewrite Hsel. reflexivity.
      * set (g := snd (f_grad (zeros (length x0)))) in *.
        assert (Hk' : (k < length g)%nat) by (rewrite Hlen; exact Hk).
        assert (H0' : (0 < length g)%nat) by (rewrite Hlen; exact Hn).
        pose proof (Hfirst _ (nth_In g 0 Hk')) as H1.
        pose proof (Hmax _ (nth_In g 0 H0')) as H2.
        pose proof (Qle_Qabs (nth 0 g 0)) as H3.
        set (a := Qabs (nth k g 0)) in *. set (b := nth 0 g 0) in *.
        set (c := Qabs b) in *.
        assert (E : a == b) by lra. rewrite Hg, E.
        assert (E' : alpha * (b - b) == 0) by ring. rewrite E'. exact Htol.
Qed.

Lemma pfw_l1_first_gap_reads_first_coordinate_witness :
  PFW_L1.minimize_PFW_L1 (quad 1 [- (3); 1]) [0; 0] 1 1 5 0 "adaptive"
  = ([zeros (length [0; 0])], Returned (zeros (length [0; 0]))).
Proof.
  refine (proj2 (pfw_l1_first_gap_reads_first_coordinate (quad 1 [- (3); 1])
                   [0; 0] 1 1 5 0 "adaptive" _ _) _ _).
  - cbn. lia.
  - reflexivity.
  - discriminate.
  - intros a Ha. vm_compute in Ha.
    destruct Ha as [<-|[<-|[]]]; vm_compute; discriminate.
Defined.

(** ** The objective of the trace-norm drivers *)









(** ** Step sizes *)







(** ** The gap of the forward step *)

Lemma fw_l1_gap_formula (alpha : Q) (s : FW_L1.state) (d : vec) (g : Q) :
  FW_L1.direction alpha s = Ok (d, g) ->
  exists k,
    (k < length (FW_L1.grad s))%nat /\
    (forall a, In a (FW_L1.grad s) ->
               Qabs a <= Qabs (nth k (FW_L1.grad s) 0)) /\
    g == dot (FW_L1.x_t s) (FW_L1.grad s)
         + alpha * Qabs (nth k (FW_L1.grad s) 0).
Proof.
  intros H. unfold FW_L1.direction in H.
  inv_bind H. apply argmax_spec in E. destruct E as (k & -> & Hk & Hmax).
  inv_bind H. apply getitem_nat_nth in E. destruct E as [-> Hkg].
  inv_bind H. apply getitem_nat_nth in E. destruct E as [-> Hkx].
  inv_bind H. apply setitem_nat in E. destruct E as [-> _].
  inversion H; subst; clear H.
  exists k. split; [exact Hkg|]. split; [apply vabs_bound; exact Hmax|].
  set (gk := nth k (FW_L1.grad s) 0) in *.
  rewrite dot_upd_l by assumption. rewrite dot_vneg_l. fold gk.
  pose proof (sign_opp_mul gk) as Hs.
  set (sg := sign (- gk)) in *.
  set (dx := dot (FW_L1.x_t s) (FW_L1.grad s)) in *.
  set (v := nth k (vneg (FW_L1.x_t s)) 0).
  assert (E : - (- dx + (v + alpha * sg - v) * gk) == dx - alpha * (sg * gk))
    by ring.
  rewrite E, Hs. ring.
Qed.

Lemma afw_l1_forward_gap_formula (alpha : Q) (n : nat) (s : AFW_L1.state)
  (idx : Z) (mag_o : Q) (away : Z) (mag_a fw aw : Q) :
  length (AFW_L1.grad s) = n ->
  AFW_L1.gaps alpha n s = Ok (idx, mag_o, away, mag_a, fw, aw) ->
  exists k,
    (k < n)%nat /\
    (forall a, In a (AFW_L1.grad s) ->
               Qabs a <= Qabs (nth k (AFW_L1.grad s) 0)) /\
    fw == dot (AFW_L1.grad s) (AFW_L1.x_t s)
          + alpha * Qabs (nth k (AFW_L1.grad s) 0).
Proof.
  intros Hlen H. unfold AFW_L1.gaps in H.
  inv_bind H. apply argmax_spec in E. destruct E as (k & -> & Hk & Hmax).
  unfold vabs in Hk. rewrite length_map, Hlen in Hk.
  inv_bind H. inv_bind H. apply oracle_coordinate in E0; [|exact Hk].
  subst a0. inv_bind H. apply getitem_nat_nth in E0. destruct E0 as [-> _].
  destruct (max_active (AFW_L1.grad s) (AFW_L1.active_set s) n true)
    as [mx away'].
  inv_bind H. inv_bind H. inversion H; subst; clear H.
  exists k. split; [exact Hk|]. split; [apply vabs_bound; exact Hmax|].
  set (gk := nth k (AFW_L1.grad s) 0) in *.
  pose proof (sign_opp_mul gk) as Hs.
  set (dx := dot (AFW_L1.grad s) (AFW_L1.x_t s)) in *.
  assert (Eg : - (alpha * sign (- gk)) * gk + dx
               == dx - alpha * (sign (- gk) * gk)) by ring.
  rewrite Eg, Hs. ring.
Qed.

(** X16.  The gap of the Frank-Wolfe step is the duality gap over the L1
    ball: in [minimize_FW_L1] the gap [g_t], and in [minimize_AFW_L1] the
    forward gap [gt_fw], equal [<grad, x_t> + alpha * max |grad|]. *)
Theorem forward_gap_is_duality_gap :
  (forall alpha s d g,
      FW_L1.direction alpha s = Ok (d, g) ->
      exists k,
        (k < length (FW_L1.grad s))%nat /\
        (forall a, In a (FW_L1.grad s) ->
                   Qabs a <= Qabs (nth k (FW_L1.grad s) 0)) /\
        g == dot (FW_L1.x_t s) (FW_L1.grad s)
             + alpha * Qabs (nth k (FW_L1.grad s) 0)) /\
  (forall alpha n s idx mag_o away mag_a fw aw,
      length (AFW_L1.grad s) = n ->
      AFW_L1.gaps alpha n s = Ok (idx, mag_o, away, mag_a, fw, aw) ->
      exists k,
        (k < n)%nat /\
        (forall a, In a (AFW_L1.grad s) ->
                   Qabs a <= Qabs (nth k (AFW_L1.grad s) 0)) /\
        fw == dot (AFW_L1.grad s) (AFW_L1.x_t s)
              + alpha * Qabs (nth k (AFW_L1.grad s) 0)).
Proof.
  split; [exact fw_l1_gap_formula|exact afw_l1_forward_gap_formula].
Qed.

Lemma forward_gap_is_duality_gap_witness :
  exists d g k,
    FW_L1.direction 1 (FW_L1.init (quad 1 [1 # 2; 0]) [0; 0] 1)
    = Ok (d, g) /\
    g == dot [0; 0] (snd (quad 1 [1 # 2; 0] [0; 0]))
         + 1 * Qabs (nth k (snd (quad 1 [1 # 2; 0] [0; 0])) 0).
Proof.
  eexists. eexists.
  assert (H : FW_L1.direction 1 (FW_L1.init (quad 1 [1 # 2; 0]) [0; 0] 1)
              = Ok (_, _)) by (vm_compute; reflexivity).
  destruct (proj1 forward_gap_is_duality_gap _ _ _ _ H) as (k & _ & _ & Hg).
  exists k. split; [exact H|exact Hg].
Defined.

(** ** The drivers with the compact active set when no slot is active *)






(** ** The test of the inline adaptive searches *)

(** X18.  The sufficient-decrease test of the inline adaptive searches.
    For a positive step it is the test of [backtrack] with a slack of one
    machine epsilon: [f_next <= f_t - step * g_t + 0.5 * step^2 * L_t * d2_t
    + eps].  For a negative step the division reverses it: the test passes
    exactly when [f_next] is at least that bound. *)
Theorem sufficient_decrease_is_backtrack_test
  (f_t f_next g_t step_size L_t d2_t : Q) :
  (0 < step_size ->
   exists b,
     sufficient_decrease f_t f_next g_t step_size L_t d2_t = Ok b /\
     (b = true <->
      f_next <= f_t - step_size * g_t
                + half * (step_size ^ 2) * L_t * d2_t + LS_EPS)) /\
  (step_size < 0 ->
   exists b,
     sufficient_decrease f_t f_next g_t step_size L_t d2_t = Ok b /\
     (b = true <->
      f_t - step_size * g_t + half * (step_size ^ 2) * L_t * d2_t + LS_EPS
      <= f_next)).
Proof.
  assert (Hdiv : ~ step_size == 0 ->
            sufficient_decrease f_t f_next g_t step_size L_t d2_t
            = Ok (Qle_bool ((f_next - f_t) / step_size)
                    (- (g_t - half * step_size * L_t * d2_t)
                     + LS_EPS / step_size))).
  { intros Hnz. unfold sufficient_decrease, fdiv.
    destruct (Qeq_bool step_size 0) eqn:Eb;
      [apply Qeq_bool_eq in Eb; contradiction|]. reflexivity. }
  assert (H1 : ~ step_size == 0 ->
               step_size * ((f_next - f_t) / step_size) == f_next - f_t)
    by (intros Hnz; apply Qmult_div_r; exact Hnz).
  assert (H2 : ~ step_size == 0 -> step_size * (LS_EPS / step_size) == LS_EPS)
    by (intros Hnz; apply Qmult_div_r; exact Hnz).
  assert (Hsq : step_size ^ 2 == step_size * step_size) by (cbn; ring).
  split.
  - intros Hs. assert (Hnz : ~ step_size == 0) by lra.
    eexists. split; [apply Hdiv; exact Hnz|].
    specialize (H1 Hnz). specialize (H2 Hnz).
    set (q1 := (f_next - f_t) / step_size) in *.
    set (q2 := LS_EPS / step_size) in *.
    rewrite Qle_bool_iff, Hsq. unfold half. split; intros H; nra.
  - intros Hs. assert (Hnz : ~ step_size == 0) by lra.
    eexists. split; [apply Hdiv; exact Hnz|].
    specialize (H1 Hnz). specialize (H2 Hnz).
    set (q1 := (f_next - f_t) / step_size) in *.
    set (q2 := LS_EPS / step_size) in *.
    rewrite Qle_bool_iff, Hsq. unfold half. split; intros H; nra.
Qed.

Lemma sufficient_decrease_is_backtrack_test_witness :
  exists b,
    sufficient_decrease 1 (1 # 2) 1 (1 # 2) 1 1 = Ok b /\
    (b = true <->
     1 # 2 <= 1 - (1 # 2) * 1 + half * ((1 # 2) ^ 2) * 1 * 1 + LS_EPS).
Proof.
  refine (proj1 (sufficient_decrease_is_backtrack_test 1 (1 # 2) 1 (1 # 2)
                   1 1) _).
  reflexivity.
Defined.

(** ** The first iteration of [minimize_AFW_L1] *)

Lemma afw_l1_gaps_at_origin (alpha : Q) (n : nat) (s : AFW_L1.state) :
  (0 < n)%nat -> length (AFW_L1.grad s) = n ->
  AFW_L1.active_set s = initial_active_set n ->
  exists k (b : bool),
    (k < n)%nat /\
    (forall a, In a (AFW_L1.grad s) ->
               Qabs a <= Qabs (nth k (AFW_L1.grad s) 0)) /\
    AFW_L1.gaps alpha n s
    = Ok ((if b then (Z.of_nat k + Z.of_nat n)%Z else Z.of_nat k),
          alpha * sign (- nth k (AFW_L1.grad s) 0),
          Z.of_nat (2 * n), alpha * - (1),
          - (alpha * sign (- nth k (AFW_L1.grad s) 0))
          * nth k (AFW_L1.grad s) 0
          + dot (AFW_L1.grad s) (AFW_L1.x_t s),
          - dot (AFW_L1.grad s) (AFW_L1.x_t s)
          + alpha * - (1) * nth 0 (AFW_L1.grad s) 0).
Proof.
  intros Hn Hlen Hact. unfold AFW_L1.gaps.
  destruct (argmax_ok (vabs (AFW_L1.grad s))) as (k & Ek & Hk).
  { unfold vabs. rewrite length_map. lia. }
  pose proof (argmax_spec _ _ Ek) as (k' & Ekk & _ & Hmax).
  apply Nat2Z.inj in Ekk. subst k'.
  unfold vabs in Hk. rewrite length_map, Hlen in Hk.
  rewrite Ek. cbn [bind].
  rewrite getitem_nth_ok by lia. cbn [bind]. unfold AFW_L1.nf.
  rewrite oracle_coordinate_ok by exact Hk. cbn [bind].
  rewrite getitem_nth_ok by lia. cbn [bind].
  rewrite Hact, max_active_initial.
  assert (Em : pymod (Z.of_nat (2 * n)) (Z.of_nat n) = Ok 0%Z).
  { unfold pymod. replace (Z.of_nat n =? 0)%Z with false
      by (symmetry; apply Z.eqb_neq; lia).
    f_equal. replace (Z.of_nat (2 * n)) with (0 + 2 * Z.of_nat n)%Z by lia.
    rewrite Z_mod_plus_full. reflexivity. }
  rewrite Em. cbn [bind].
  rewrite (getitem_nth_ok _ 0) by lia. cbn [bind].
  rewrite sign_Z_neg by lia.
  exists k. eexists. split; [exact Hk|].
  split; [apply vabs_bound; exact Hmax|reflexivity].
Qed.

(** X19.  The first iteration of [minimize_AFW_L1] is a Frank-Wolfe step:
    for [alpha >= 0] its selection at the origin succeeds with
    [gamma_max = 1], the direction toward the oracle vertex, and the gap
    [alpha * max |grad|], the duality gap at the origin. *)
Theorem afw_l1_first_step_is_forward (f_grad : oracle vec) (alpha L0 : Q)
  (n : nat) :
  0 <= alpha -> (0 < n)%nat -> length (snd (f_grad (zeros n))) = n ->
  exists sel k,
    AFW_L1.select alpha n (AFW_L1.init f_grad n L0) = Ok sel /\
    (k < n)%nat /\
    (forall a, In a (snd (f_grad (zeros n))) ->
               Qabs a <= Qabs (nth k (snd (f_grad (zeros n))) 0)) /\
    AFW_L1.gamma_max sel = 1 /\
    AFW_L1.g_t sel = AFW_L1.gt_fw sel /\
    AFW_L1.g_t sel == alpha * Qabs (nth k (snd (f_grad (zeros n))) 0) /\
    AFW_L1.d_t sel
    = upd (vneg (zeros n)) k
        (nth k (vneg (zeros n)) 0
         + alpha * sign (- nth k (snd (f_grad (zeros n))) 0)).
Proof.
  intros Ha Hn Hlen.
  assert (Hinit : exists f0,
             AFW_L1.init f_grad n L0
             = {| AFW_L1.x_t := zeros n; AFW_L1.f_t := f0;
                  AFW_L1.grad := snd (f_grad (zeros n)); AFW_L1.L_t := L0;
                  AFW_L1.active_set := initial_active_set n;
                  AFW_L1.trace := [zeros n] |}).
  { unfold AFW_L1.init. destruct (f_grad (zeros n)) as [f0 g0].
    exists f0. reflexivity. }
  destruct Hinit as (f0 & ->).
  set (s := {| AFW_L1.x_t := zeros n; AFW_L1.f_t := f0;
               AFW_L1.grad := snd (f_grad (zeros n)); AFW_L1.L_t := L0;
               AFW_L1.active_set := initial_active_set n;
               AFW_L1.trace := [zeros n] |}).
  destruct (afw_l1_gaps_at_origin alpha n s Hn Hlen eq_refl)
    as (k & b & Hk & Hmax & Hg).
  cbn [AFW_L1.grad AFW_L1.x_t s] in Hmax, Hg.
  set (g := snd (f_grad (zeros n))) in *.
  set (gk := nth k g 0) in *. set (g0 := nth 0 g 0) in *.
  unfold AFW_L1.select. rewrite Hg. cbn [bind]. cbv beta zeta.
  set (fw := - (alpha * sign (- gk)) * gk + dot g (zeros n)).
  set (aw := - dot g (zeros n) + alpha * - (1) * g0).
  pose proof (sign_opp_mul gk) as Hs.
  assert (Hfw : fw == alpha * Qabs gk).
  { unfold fw. rewrite dot_zeros_r.
    assert (E : - (alpha * sign (- gk)) * gk + 0
                == - (alpha * (sign (- gk) * gk))) by ring.
    rewrite E, Hs. ring. }
  assert (Haw : aw == - (alpha * g0)).
  { unfold aw. rewrite dot_zeros_r. ring. }
  assert (H0g : Qabs g0 <= Qabs gk).
  { apply Hmax. apply nth_In. unfold g in *. rewrite Hlen. exact Hn. }
  pose proof (Qabs_nonneg gk) as Hp.
  pose proof (Qle_Qabs (- g0)) as Hq. rewrite Qabs_opp in Hq.
  assert (H1 : Qle_bool 0 fw = true).
  { apply Qle_bool_iff. rewrite Hfw. nra. }
  assert (H2 : Qle_bool aw fw = true).
  { apply Qle_bool_iff. rewrite Hfw, Haw. nra. }
  rewrite H1. cbn [assert bind]. rewrite H2. unfold AFW_L1.nf.
  rewrite oracle_coordinate_ok by exact Hk. cbn [bind].
  cbn [AFW_L1.x_t s].
  assert (Hl : (k < length (vneg (zeros n)))%nat).
  { unfold vneg, zeros. rewrite length_map, repeat_length. exact Hk. }
  rewrite getitem_nth_ok by exact Hl. cbn [bind].
  rewrite setitem_ok by exact Hl. cbn [bind].
  eexists. exists k. split; [reflexivity|].
  cbn [AFW_L1.gamma_max AFW_L1.g_t AFW_L1.gt_fw AFW_L1.d_t].
  split; [exact Hk|]. split; [exact Hmax|]. split; [reflexivity|].
  split; [reflexivity|]. split; [exact Hfw|reflexivity].
Qed.

Lemma afw_l1_first_step_is_forward_witness :
  exists sel k,
    AFW_L1.select 1 2 (AFW_L1.init (quad 1 [- (3); 1]) 2 1) = Ok sel /\
    (k < 2)%nat /\
    AFW_L1.gamma_max sel = 1 /\
    AFW_L1.g_t sel
    == 1 * Qabs (nth k (snd (quad 1 [- (3); 1] (zeros 2))) 0).
Proof.
  destruct (afw_l1_first_step_is_forward (quad 1 [- (3); 1]) 1 1 2)
    as (sel & k & Hsel & Hk & _ & Hg & _ & Hgap & _).
  - discriminate.
  - lia.
  - reflexivity.
  - exists sel, k. split; [exact Hsel|]. split; [exact Hk|].
    split; [exact Hg|exact Hgap].
Defined.

(** ** Indices stay in range *)

Lemma py_index_in_range (len : nat) (i : Z) :
  (- Z.of_nat len <= i < Z.of_nat len)%Z ->
  exists k, py_index len i = Ok k /\ (k < len)%nat.
Proof.
  intros Hi. unfold py_index.
  destruct ((0 <=? i) && (i <? Z.of_nat len))%Z eqn:E1.
  - apply andb_prop in E1. destruct E1 as [E1 E2].
    apply Z.leb_le in E1. apply Z.ltb_lt in E2.
    eexists. split; [reflexivity|lia].
  - destruct ((i <? 0) && (- Z.of_nat len <=? i))%Z eqn:E2.
    + apply andb_prop in E2. destruct E2 as [E2 E3].
      apply Z.ltb_lt in E2. apply Z.leb_le in E3.
      eexists. split; [reflexivity|lia].
    + exfalso. apply andb_false_iff in E1, E2.
      rewrite Z.leb_gt, Z.ltb_ge in E1. rewrite Z.ltb_ge, Z.leb_gt in E2.
      lia.
Qed.

Lemma getitem_in_range {A : Type} (l : list A) (i : Z) :
  (- Z.of_nat (length l) <= i < Z.of_nat (length l))%Z ->
  exists a, getitem l i = Ok a.
Proof.
  intros Hi. unfold getitem.
  destruct (py_index_in_range _ _ Hi) as (k & -> & Hk). cbn [bind].
  destruct (nth_error l k) eqn:En; [eexists; reflexivity|].
  apply nth_error_None in En. lia.
Qed.




Lemma fdiv_raises (a b : Q) (e : exn) : fdiv a b = Raise e -> e = NonFinite.
Proof.
  unfold fdiv. destruct (Qeq_bool b 0); intros H; [|discriminate].
  injection H as <-. reflexivity.
Qed.


(** The exception that ends a loop was raised by its body in a state the
    loop reached. *)
Lemma for_range_raised {St : Type} (body : nat -> St -> res (option St))
  (n : nat) :
  forall it s s' e,
    for_range body n it s = (s', Some e) ->
    exists k, reach body k it s s' /\ body (it + k)%nat s' = Raise e.
Proof.
  induction n as [|n IH]; intros it s s' e H; cbn [for_range] in H;
    [discriminate|].
  destruct (body it s) as [[s1|]|e1] eqn:Eb.
  - destruct (IH _ _ _ _ H) as (k & Hr & Hb). exists (S k). split.
    + exists s1. split; assumption.
    + replace (it + S k)%nat with (S it + k)%nat by lia. exact Hb.
  - discriminate.
  - injection H as <- <-. exists 0%nat. split; [reflexivity|].
    rewrite Nat.add_0_r. exact Eb.
Qed.


(** *** [minimize_PFW_L1] *)








(** *** [minimize_AFW_L1] *)










(** *** [minimize_FW_L1] *)

Lemma fw_l1_direction_ok (alpha : Q) (n : nat) (s : FW_L1.state) :
  (0 < n)%nat -> fw_l1_shaped n s ->
  exists d g, FW_L1.direction alpha s = Ok (d, g) /\ length d = n.
Proof.
  intros Hn (Hx & Hg). unfold FW_L1.direction.
  destruct (argmax_ok (vabs (FW_L1.grad s))) as (k & -> & Hk).
  { unfold vabs. rewrite length_map. lia. }
  unfold vabs in Hk. rewrite length_map, Hg in Hk.
  assert (Hl : length (vneg (FW_L1.x_t s)) = n)
    by (unfold vneg; rewrite length_map; exact Hx).
  cbn [bind]. rewrite getitem_nth_ok by lia. cbn [bind].
  rewrite getitem_nth_ok by lia. cbn [bind].
  rewrite setitem_ok by lia. cbn [bind].
  do 2 eexists. split; [reflexivity|]. rewrite length_upd. exact Hl.
Qed.

(** [backtrack] raises nothing of its own once it makes a trial. *)
Lemma backtrack_for_raises (f_grad : oracle vec) (f_t : Q) (x d : vec)
  (g gmax ri rd : Q) (n : nat) :
  forall i L last e,
    (n = 0%nat -> last <> None) ->
    backtrack_for f_grad f_t x d g gmax ri rd n i L last = Raise e ->
    e = NonFinite.
Proof.
  induction n as [|n IH]; intros i L last e Hl H.
  - cbn [backtrack_for] in H. destruct last as [[[st fn] gn]|];
      [discriminate|].
    exfalso. apply Hl; reflexivity.
  - rewrite backtrack_for_S in H.
    destruct (fdiv g (dot d d * L)) as [q|e1] eqn:Eq; cbn [bind] in H.
    2:{ injection H as <-. exact (fdiv_raises _ _ _ Eq). }
    cbv zeta in H. destruct (f_grad _) as [fn gn].
    destruct (Qle_bool fn _); [discriminate|].
    refine (IH (S i) L _ e _ H). intros _. discriminate.
Qed.

Lemma backtrack_for_grad (f_grad : oracle vec) (f_t : Q) (x d : vec)
  (g gmax ri rd : Q) (n : nat) :
  forall i L last st L' fn gn,
    (forall st0 f0 g0, last = Some (st0, f0, g0) ->
                       g0 = snd (f_grad (axpy x st0 d))) ->
    backtrack_for f_grad f_t x d g gmax ri rd n i L last
    = Ok (st, L', fn, gn) ->
    gn = snd (f_grad (axpy x st d)).
Proof.
  induction n as [|n IH]; intros i L last st L' fn gn Hl H.
  - cbn [backtrack_for] in H. destruct last as [[[st0 f0] g0]|];
      [|discriminate].
    injection H as <- _ _ <-. apply (Hl _ _ _ eq_refl).
  - rewrite backtrack_for_S in H. inv_bind H.
    destruct (f_grad (axpy x (pymin a gmax) d)) as [fn' gn'] eqn:Ef.
    destruct (Qle_bool fn' _).
    + injection H as <- _ _ <-. rewrite Ef. reflexivity.
    + refine (IH _ _ _ _ _ _ _ _ H). intros st0 f0 g0 E0.
      injection E0 as <- _ <-. rewrite Ef. reflexivity.
Qed.

Lemma backtrack_raises (f_grad : oracle vec) (f_t : Q) (x d : vec)
  (g L gmax ri rd : Q) (max_iter : nat) (e : exn) :
  (0 < max_iter)%nat ->
  backtrack f_grad f_t x d g L gmax ri rd max_iter = Raise e ->
  e = NonFinite.
Proof.
  intros Hn H. unfold backtrack in H.
  refine (backtrack_for_raises _ _ _ _ _ _ _ _ max_iter 0 _ None e _ H).
  intros Hc. lia.
Qed.

Lemma backtrack_grad (f_grad : oracle vec) (f_t : Q) (x d : vec)
  (g L gmax ri rd : Q) (max_iter : nat) (st L' fn : Q) (gn : vec) :
  backtrack f_grad f_t x d g L gmax ri rd max_iter = Ok (st, L', fn, gn) ->
  gn = snd (f_grad (axpy x st d)).
Proof.
  intros H. unfold backtrack in H.
  refine (backtrack_for_grad _ _ _ _ _ _ _ _ _ _ _ None _ _ _ _ _ H).
  intros st0 f0 g0 E0. discriminate E0.
Qed.

(** [approx_ls_armijo] raises by its assertion only. *)
Lemma approx_ls_armijo_for_raises (f_grad : oracle vec) (f_t : Q)
  (x d : vec) (n : nat) :
  forall b last e,
    (n = 0%nat -> last <> None) ->
    approx_ls_armijo_for f_grad f_t x d n b last = Raise e ->
    e = AssertionError.
Proof.
  induction n as [|n IH]; intros b last e Hl H.
  - cbn [approx_ls_armijo_for] in H. destruct last; [discriminate|].
    exfalso. apply Hl; reflexivity.
  - cbn [approx_ls_armijo_for] in H.
    destruct (Qle_bool (grad_lbracket b * grad_rbracket b) 0);
      cbn [assert bind] in H; [|injection H as <-; reflexivity].
    cbv zeta in H. destruct (obj f_grad x d _) as [[fc gc] gf].
    destruct (Qltb fc _); [discriminate|].
    refine (IH _ _ e _ H). intros _. discriminate.
Qed.

Lemma approx_ls_armijo_raises (f_grad : oracle vec) (f_t : Q) (x d : vec)
  (gamma_max : Q) (max_iter : nat) (e : exn) :
  (0 < max_iter)%nat ->
  approx_ls_armijo f_grad f_t x d gamma_max max_iter = Raise e ->
  e = AssertionError.
Proof.
  intros Hn H. unfold approx_ls_armijo in H.
  refine (approx_ls_armijo_for_raises _ _ _ _ max_iter _ None e _ H).
  intros Hc. lia.
Qed.

Lemma fw_l1_line_search_grad (f_grad : oracle vec) (ls : string)
  (s : FW_L1.state) (d : vec) (g st L' fn : Q) (gn : vec) :
  FW_L1.line_search f_grad ls s d g = Ok (st, L', fn, gn) ->
  gn = snd (f_grad (axpy (FW_L1.x_t s) st d)).
Proof.
  unfold FW_L1.line_search. intros H.
  destruct (ls =? "adaptive")%string.
  - apply backtrack_grad in H. exact H.
  - destruct (ls =? "Lipschitz")%string.
    + inv_bind H. destruct (f_grad _) as [fn' gn'] eqn:Ef.
      injection H as <- _ _ <-. rewrite Ef. reflexivity.
    + destruct (ls =? "approx_ls")%string; [|discriminate].
      inv_bind H. destruct (f_grad _) as [fn' gn'] eqn:Ef.
      injection H as <- _ _ <-. rewrite Ef. reflexivity.
Qed.

Lemma fw_l1_step_shaped (f_grad : oracle vec) (alpha tol : Q) (ls : string)
  (n it : nat) (s s' : FW_L1.state) :
  (0 < n)%nat -> oracle_shaped n f_grad -> fw_l1_shaped n s ->
  FW_L1.body f_grad alpha tol ls it s = Ok (Some s') -> fw_l1_shaped n s'.
Proof.
  intros Hn Hf Hs H. pose proof Hs as (Hx & Hg). unfold FW_L1.body in H.
  destruct (fw_l1_direction_ok alpha n s Hn Hs) as (d & g & Ed & Hd).
  rewrite Ed in H. cbn [bind] in H.
  destruct (Qle_bool g tol); [discriminate|].
  inv_bind H. destruct a as [[[st L'] fn] gn]. injection H as <-.
  apply fw_l1_line_search_grad in E.
  assert (Hx' : length (axpy (FW_L1.x_t s) st d) = n)
    by (rewrite length_axpy; congruence).
  split; cbn [FW_L1.x_t FW_L1.grad]; [exact Hx'|].
  rewrite E. apply Hf. exact Hx'.
Qed.

Lemma fw_l1_line_search_raises (f_grad : oracle vec) (ls : string)
  (s : FW_L1.state) (d : vec) (g : Q) (e : exn) :
  FW_L1.line_search f_grad ls s d g = Raise e ->
  e = NonFinite \/
  (e = AssertionError /\ ls = "approx_ls"%string) \/
  (e = UnboundLocalError /\ ls <> "adaptive"%string /\
   ls <> "Lipschitz"%string /\ ls <> "approx_ls"%string).
Proof.
  unfold FW_L1.line_search.
  destruct (String.eqb_spec ls "adaptive") as [E1|E1].
  - intros H. left. apply backtrack_raises in H; [exact H|lia].
  - destruct (String.eqb_spec ls "Lipschitz") as [E2|E2].
    + destruct (fdiv g _) as [q|e1] eqn:Eq; cbn [bind].
      * destruct (f_grad _) as [fn gn]. discriminate.
      * intros H. injection H as <-. left. exact (fdiv_raises _ _ _ Eq).
    + destruct (String.eqb_spec ls "approx_ls") as [E3|E3].
      * destruct (approx_ls_armijo f_grad (FW_L1.f_t s) (FW_L1.x_t s) d 1
                    100) as [c|e1] eqn:Ec; cbn [bind].
        -- destruct (f_grad _) as [fn gn]. discriminate.
        -- intros H. injection H as <-. right. left.
           split; [|exact E3].
           apply approx_ls_armijo_raises in Ec; [exact Ec|lia].
      * intros H. injection H as <-. right. right. tauto.
Qed.

(** X21.  What [minimize_FW_L1] can raise, by strategy.  With a nonempty
    [x0] and an oracle that returns gradients of the size of its argument
    it never ends with an [IndexError] or a [ValueError]; an
    [AssertionError] comes from the bisection of 'approx_ls' only, and the
    unbound step size from a strategy name that is none of the three. *)
Theorem fw_l1_raises_by_strategy
  (f_grad : oracle vec) (x0 : vec) (alpha L0 : Q) (max_iter : nat) (tol : Q)
  (ls : string) (e : exn) :
  (0 < length x0)%nat -> oracle_shaped (length x0) f_grad ->
  snd (FW_L1.minimize_FW_L1 f_grad x0 alpha L0 max_iter tol ls) = Raised e ->
  e <> IndexError /\ e <> ValueError /\ e <> ZeroDivisionError /\
  (e = AssertionError -> ls = "approx_ls"%string) /\
  (e = UnboundLocalError ->
   ls <> "adaptive"%string /\ ls <> "Lipschitz"%string /\
   ls <> "approx_ls"%string).
Proof.
  intros Hn Hf H. unfold FW_L1.minimize_FW_L1, finish in H.
  destruct (for_range _ max_iter 0 _) as [s' [e'|]] eqn:Er;
    cbn [snd fst] in H; [|discriminate].
  injection H as H. subst e'.
  destruct (for_range_raised _ _ _ _ _ _ Er) as (k & Hr & Hb).
  assert (Hs : fw_l1_shaped (length x0) s').
  { refine (reach_invariant _ (fw_l1_shaped (length x0))
              (fun it s1 s2 => fw_l1_step_shaped f_grad alpha tol ls _ it
                                 s1 s2 Hn Hf) _ _ _ _ _ Hr).
    unfold FW_L1.init. pose proof (Hf x0 eq_refl) as Hg.
    destruct (f_grad x0) as [f0 g0]. split; [reflexivity|exact Hg]. }
  unfold FW_L1.body in Hb.
  destruct (fw_l1_direction_ok alpha _ s' Hn Hs) as (d & g & Ed & _).
  rewrite Ed in Hb. cbn [bind] in Hb.
  destruct (Qle_bool g tol); [discriminate|].
  destruct (FW_L1.line_search f_grad ls s' d g)
    as [[[[st L'] fn] gn]|e1] eqn:Els; cbn [bind] in Hb; [discriminate|].
  injection Hb as Hb. subst e1.
  apply fw_l1_line_search_raises in Els.
  destruct Els as [-> | [[-> Hls] | [-> Hls] ] ].
  - repeat split; discriminate.
  - repeat split; try discriminate. intros _. exact Hls.
  - split; [discriminate|]. split; [discriminate|]. split; [discriminate|].
    split; [discriminate|]. intros _. exact Hls.
Qed.

Lemma fw_l1_raises_by_strategy_witness :
  snd (FW_L1.minimize_FW_L1 (quad 1 [4]) [0] 1 1 5 0 "approx_ls")
  = Raised AssertionError /\
  (AssertionError = AssertionError -> "approx_ls"%string = "approx_ls"%string).
Proof.
  split; [vm_compute; reflexivity|].
  refine (proj1 (proj2 (proj2 (proj2
            (fw_l1_raises_by_strategy (quad 1 [4]) [0] 1 1 5 0 "approx_ls"
               AssertionError _ _ _))))).
  - cbn. lia.
  - exact (quad_shaped 1 [4]).
  - vm_compute. reflexivity.
Defined.
